(** * Monte Carlo integration notebooks: blocking analysis, Gibbs
      accept-reject sampling, importance estimation, plain Monte Carlo.

    Shallow embedding of the numerical core of the notebooks:
    [blocking_variance] and [monte_carlo_integral] (the two notebooks
    whose cells define them) and [gibbs_accept_reject] and
    [importance_integration] (multidim_Gibbs.ipynb).

    Numbers.  The notebooks compute with numpy [float64].  The functions
    are embedded once, over an interface [Scalar] of the arithmetic they
    use, and the interface is instantiated twice: by the reals (the usual
    idealisation, under which sums can be reordered and the statistical
    formulas are proved) and by the binary64 floats of the kernel (under
    which a division by zero or an overflow can be run and observed).
    numpy's float division never raises: it returns an infinity or a NaN
    (and prints a warning), which is why [fdiv] is total; the division of
    two Python floats does raise, and [Checked.truediv] tells the two
    apart.  Reductions are modelled as accumulation from left to right;
    numpy sums pairwise, which changes roundings but no real-number value.

    Integers.  Python integers are [Z]; [//] is [Z.div], which like
    Python's rounds towards minus infinity.  [int(np.log2(q))] is taken
    to be the exact truncated logarithm on positive [q].  The elements of
    an [int64] array wrap around modulo [2^64] ([wrap_int64]).

    Arrays.  One-dimensional arrays are lists, a chain (an array of shape
    [(n, d)]) is a list of rows, and a function applied to a batch of rows
    is mapped over them: the functions passed in are taken to be
    vectorised over rows, as the notebooks' are.  An argument that
    [np.array] converts is an [array]: a list of floats ([float64]) or a
    list of integers ([int64]).  [x.copy()] needs no counterpart: values
    here are never updated in place.

    Random numbers.  The generators of the notebooks are global objects;
    here the generator state is passed to and returned by every function
    that draws from it, and the generator itself is a function from a
    state to the next double in [[0, 1)] and the advanced state.

    Exceptions.  A function that can raise returns a [result].

    The sampler is embedded at two levels.  [gibbs_accept_reject] is the
    run inside the sampler's contract: a float state, a density that
    returns numpy floats, a step size [h] whose range [h - (-h)] is finite
    and not negative.  [Checked.gibbs_accept_reject] is the call as Python
    executes it on any argument: the argument checks of
    [Generator.uniform], the dtype that [np.array(x0)] infers, and the
    [ZeroDivisionError] of Python floats; inside the contract the two
    agree ([gibbs_accept_reject_in_contract]). *)

From Stdlib Require Import ZArith List Lia Reals Lra.
From Stdlib Require PrimFloat Uint63 Floats.
From stdpp Require Import base list.

(** ** Exceptions and results *)

Inductive exn : Set :=
| ZeroDivisionError   (* integer [//] by zero *)
| OverflowError       (* [int] of an infinite float, non-finite range *)
| ValueError.         (* [int] of a NaN, zero slice step, bad shape,
                         negative range *)

Inductive result (A : Type) : Type :=
| Ok (a : A)
| Raise (e : exn).
Arguments Ok {A} a.
Arguments Raise {A} e.

(** Sequencing stops at the first exception ([x ← r; k]). *)
#[export] Instance result_bind : MBind result := fun A B k r =>
  match r with
  | Ok a => k a
  | Raise e => Raise e
  end.

(** Whether a call ended in an exception. *)
Definition raises {A} (r : result A) : bool :=
  match r with Ok _ => false | Raise _ => true end.

(** ** The arithmetic interface *)

Class Scalar (F : Type) : Type := {
  fadd : F -> F -> F;
  fsub : F -> F -> F;
  fmul : F -> F -> F;
  fdiv : F -> F -> F;      (* true division of floats: never raises *)
  fneg : F -> F;
  fsqrt : F -> F;
  fltb : F -> F -> bool;   (* [<] *)
  of_Z : Z -> F            (* int -> float64 conversion *)
}.

(** [<] on the reals, as a boolean. *)
Definition Rltb (x y : R) : bool := if Rlt_dec x y then true else false.

#[export] Instance R_scalar : Scalar R := {
  fadd := Rplus; fsub := Rminus; fmul := Rmult; fdiv := Rdiv;
  fneg := Ropp; fsqrt := sqrt; fltb := Rltb; of_Z := IZR
}.

(** Conversion of an [int64] value to the nearest float ([-2^63] is the
    one value whose magnitude does not fit the 63 bits of [Uint63]). *)
Definition float_of_Z (z : Z) : PrimFloat.float :=
  match z with
  | Z0 => PrimFloat.zero
  | Zpos _ => PrimFloat.of_uint63 (Uint63.of_Z z)
  | Zneg p =>
      if (Zpos p =? 2 ^ 63)%Z
      then PrimFloat.opp
             (PrimFloat.mul (PrimFloat.of_uint63 (Uint63.of_Z (2 ^ 62)))
                            (PrimFloat.of_uint63 (Uint63.of_Z 2)))
      else PrimFloat.opp (PrimFloat.of_uint63 (Uint63.of_Z (Zpos p)))
  end.

#[export] Instance float_scalar : Scalar PrimFloat.float := {
  fadd := PrimFloat.add; fsub := PrimFloat.sub; fmul := PrimFloat.mul;
  fdiv := PrimFloat.div; fneg := PrimFloat.opp; fsqrt := PrimFloat.sqrt;
  fltb := PrimFloat.ltb; of_Z := float_of_Z
}.

(** ** Tests and casts *)

(** What numpy and Python test before or while they compute. *)
Class Checks (F : Type) : Type := {
  fisfinite : F -> bool;   (* [np.isfinite] *)
  fsignbit : F -> bool;    (* [np.signbit] *)
  fiszero : F -> bool;     (* [== 0.0] *)
  fint64 : F -> F          (* the value an [int64] array stores for it *)
}.

(** Truncation towards zero. *)
Definition Rtrunc (x : R) : R :=
  if Rle_dec 0 x then IZR (Int_part x) else (- IZR (Int_part (- x)))%R.

(** The doubles end just below [2^1024]. *)
Definition float_limit : R := IZR (2 ^ 1024).

(** Over the reals a number counts as finite when a double can hold its
    magnitude; there is no negative zero; the bounds of [int64] are left
    out. *)
#[export] Instance R_checks : Checks R := {
  fisfinite := fun x => Rltb (Rabs x) float_limit;
  fsignbit := fun x => Rltb x 0;
  fiszero := fun x => if Req_dec_T x 0 then true else false;
  fint64 := Rtrunc
}.

(** The C cast of a double to [int64]: truncation towards zero, and
    [-2^63] for a NaN, an infinity or a value out of range (as on
    x86-64). *)
Definition float_to_int64 (x : PrimFloat.float) : Z :=
  match FloatOps.Prim2SF x with
  | SpecFloat.S754_zero _ => 0
  | SpecFloat.S754_finite s m e =>
      let mag := if (0 <=? e)%Z then (Zpos m * 2 ^ e)%Z
                 else (Zpos m / 2 ^ (- e))%Z in
      let z := if s then (- mag)%Z else mag in
      if ((- 2 ^ 63 <=? z) && (z <? 2 ^ 63))%Z then z else (- 2 ^ 63)%Z
  | _ => (- 2 ^ 63)%Z
  end.

#[export] Instance float_checks : Checks PrimFloat.float := {
  fisfinite := PrimFloat.is_finite;
  fsignbit := PrimFloat.get_sign;
  fiszero := PrimFloat.is_zero;
  fint64 := fun x => float_of_Z (float_to_int64 x)
}.

(** ** Arrays and their dtype *)

Inductive dtype : Set := float64 | int64.

(** What [np.array] makes of a sequence of numbers: an array of floats,
    or, when every element is a Python integer, an array of [int64]. *)
Inductive array (F : Type) : Type :=
| FloatArray (a : list F)
| IntArray (a : list Z).
Arguments FloatArray {F} a.
Arguments IntArray {F} a.

Definition array_dtype {F} (a : array F) : dtype :=
  match a with FloatArray _ => float64 | IntArray _ => int64 end.

(** The elements as floats (what an operation with a float operand, or a
    function that asks for doubles, sees). *)
Definition array_values {F} `{Scalar F} (a : array F) : list F :=
  match a with FloatArray v => v | IntArray v => map of_Z v end.

(** [int64] arithmetic wraps around. *)
Definition wrap_int64 (z : Z) : Z := ((z + 2 ^ 63) mod 2 ^ 64 - 2 ^ 63)%Z.

(** [np.prod] of an [int64] array. *)
Definition np_prod_int64 (a : list Z) : Z :=
  fold_left (fun acc v => wrap_int64 (acc * v)) a 1%Z.

(** What a quotient is taken on: numpy floats ([np.float64] scalars or
    arrays), or two Python floats. *)
Inductive quotient : Set := numpy_division | python_division.

(** ** Integer helpers *)

(** [int(np.log2(q))] for a Python integer [q]: [np.log2(0)] is [-inf]
    and [int(-inf)] raises [OverflowError]; [np.log2] of a negative number
    is NaN and [int(nan)] raises [ValueError]; on a positive [q] the
    result is the truncated logarithm. *)
Definition int_log2 (q : Z) : result Z :=
  if (q =? 0)%Z then Raise OverflowError
  else if (q <? 0)%Z then Raise ValueError
  else Ok (Z.log2 q).

(** Python's [a // b] on integers. *)
Definition floordiv (a b : Z) : result Z :=
  if (b =? 0)%Z then Raise ZeroDivisionError else Ok (a / b)%Z.

(** [2 ** np.arange(n)]. *)
Definition pow2_arange (n : Z) : list Z :=
  map (fun k => 2 ^ Z.of_nat k)%Z (seq 0 (Z.to_nat n)).

(** ** Integer ceiling division *)

(** [ceil (a / b)] for a positive [b]. *)
Definition ceil_div (a b : Z) : Z := ((a + b - 1) / b)%Z.

(** ** numpy reductions *)

Section Numpy.
Context {F : Type} `{Scalar F}.

(** [np.sum]: accumulation from the additive identity. *)
Definition np_sum (a : list F) : F := fold_left fadd a (of_Z 0).

(** [np.prod]. *)
Definition np_prod (a : list F) : F := fold_left fmul a (of_Z 1).

(** [np.mean]: sum over element count. *)
Definition np_mean (a : list F) : F :=
  fdiv (np_sum a) (of_Z (Z.of_nat (length a))).

(** [a.var(ddof)]: mean of squared deviations from [a.mean()], with
    divisor [max(n - ddof, 0)]. *)
Definition np_var (ddof : Z) (a : list F) : F :=
  let arrmean := np_mean a in
  let x := map (fun v => fsub v arrmean) a in
  let x := map (fun v => fmul v v) x in
  fdiv (np_sum x) (of_Z (Z.max (Z.of_nat (length a) - ddof) 0)).

(** [np.std]: square root of the [ddof = 0] variance. *)
Definition np_std (a : list F) : F := fsqrt (np_var 0 a).

(** Rows of [a.reshape(rows, cols)] once the size has been checked. *)
Fixpoint rows_of (rows cols : nat) (a : list F) : list (list F) :=
  match rows with
  | O => []
  | S r => take cols a :: rows_of r cols (drop cols a)
  end.

(** [a.reshape(rows, cols)] of a one-dimensional array: row-major, and a
    [ValueError] when the sizes disagree. *)
Definition np_reshape (rows cols : nat) (a : list F) : result (list (list F)) :=
  if Nat.eqb (length a) (rows * cols) then Ok (rows_of rows cols a)
  else Raise ValueError.

(** ** blocking_variance *)

(** One pass of the loop body for block length [L]: the pair appended to
    [var_mean] and [err_var]. *)
Definition blocking_body (series : list F) (n_blocks L : Z) : result (F * F) :=
  rows ← np_reshape (Z.to_nat n_blocks) (Z.to_nat L)
            (take (Z.to_nat (n_blocks * L)) series);
  let blocks := map np_mean rows in
  let s2 := np_var 1 blocks in
  let v_mean := fdiv s2 (of_Z n_blocks) in
  Ok (v_mean, fmul v_mean (fsqrt (fdiv (of_Z 2) (of_Z (n_blocks - 1))))).

(** The [for L in bin_sizes] loop, with its [break]. *)
Fixpoint blocking_loop (series : list F) (min_blocks : Z) (bin_sizes : list Z)
    (var_mean err_var : list F) : result (list F * list F) :=
  match bin_sizes with
  | [] => Ok (var_mean, err_var)
  | L :: rest =>
      let n_blocks := (Z.of_nat (length series) / L)%Z in
      if (n_blocks <? min_blocks)%Z then Ok (var_mean, err_var)
      else
        ve ← blocking_body series n_blocks L;
        blocking_loop series min_blocks rest
          (var_mean ++ [ve.1]) (err_var ++ [ve.2])
  end.

Definition blocking_variance (series : list F) (min_blocks : Z)
    : result (list Z * list F * list F) :=
  let N := Z.of_nat (length series) in
  q ← floordiv N min_blocks;
  max_power ← int_log2 q;
  let bin_sizes := pow2_arange (max_power + 1) in
  ve ← blocking_loop series min_blocks bin_sizes [] [];
  Ok (take (length ve.1) bin_sizes, ve.1, ve.2).

(** The pair one successful pass appends, as a function of the block
    length alone (used to state what the loop accumulates). *)
Definition blocking_entry (series : list F) (L : Z) : F * F :=
  let n_blocks := (Z.of_nat (length series) / L)%Z in
  let rows := rows_of (Z.to_nat n_blocks) (Z.to_nat L)
                (take (Z.to_nat (n_blocks * L)) series) in
  let v_mean := fdiv (np_var 1 (map np_mean rows)) (of_Z n_blocks) in
  (v_mean, fmul v_mean (fsqrt (fdiv (of_Z 2) (of_Z (n_blocks - 1))))).

End Numpy.

(** ** Python list slicing *)

Section Slicing.
Context {A : Type} `{Inhabited A}.

(** [l[::step]].  The item count and the indices are those of CPython's
    slice adjustment with [start] and [stop] omitted: for a positive step
    the walk starts at index [0], for a negative one at the last index;
    a zero step is a [ValueError]. *)
Definition slice_step (step : Z) (l : list A) : result (list A) :=
  let len := Z.of_nat (length l) in
  if (step =? 0)%Z then Raise ValueError
  else
    let start := if (0 <? step)%Z then 0%Z else (len - 1)%Z in
    let slicelength :=
      if (0 <? len)%Z then ((len - 1) / Z.abs step + 1)%Z else 0%Z in
    Ok (map (fun i => l !!! Z.to_nat (start + Z.of_nat i * step))
            (seq 0 (Z.to_nat slicelength))).

(** [l[start:]]: a negative [start] counts from the end, and the bound is
    clipped to [0 .. len]. *)
Definition slice_from (start : Z) (l : list A) : list A :=
  let len := Z.of_nat (length l) in
  let start :=
    if (start <? 0)%Z then Z.max (start + len) 0 else Z.min start len in
  drop (Z.to_nat start) l.

(** What "keeping every [t]-th element" means, told without indices: keep
    an element, pass over the next [t - 1], keep the next, and so on;
    [skip] counts the elements still to pass over. *)
Fixpoint every_nth_from (t skip : nat) (l : list A) : list A :=
  match l with
  | [] => []
  | x :: l' =>
      match skip with
      | O => x :: every_nth_from t (t - 1) l'
      | S s => every_nth_from t s l'
      end
  end.

(** Every [t]-th element, the first one included. *)
Definition every_nth (t : nat) (l : list A) : list A := every_nth_from t 0 l.

End Slicing.

(** ** The samplers and estimators *)

Section Sampling.
Context {F : Type} `{Scalar F} `{Checks F}.

(** The random source: a generator state and the function that yields the
    next double in [[0, 1)] together with the advanced state.  The
    notebooks keep the state in a global ([rng], or numpy's legacy global
    generator); here it is passed along. *)
Context {RNG : Type} (next_double : RNG -> F * RNG).

(** [rng.uniform(low, high)] for a range that passes the argument checks
    (with the checks: [Checked.uniform]). *)
Definition uniform (low high : F) (g : RNG) : F * RNG :=
  let '(u, g') := next_double g in
  (fadd low (fmul (fsub high low) u), g').

(** [rng.uniform()]: the defaults are [low = 0.0], [high = 1.0]. *)
Definition uniform01 (g : RNG) : F * RNG := uniform (of_Z 0) (of_Z 1) g.

(** [x[j]] for an index the loops keep in range. *)
Definition getitem (x : list F) (j : nat) : F := nth j x (of_Z 0).

(** *** gibbs_accept_reject *)

(** Body of the loop over [j]: one accept-reject update of coordinate
    [j], on a float state and with a quotient of numpy floats (any state
    and quotient: [Checked.gibbs_update]). *)
Definition gibbs_update (step_size : F) (target_pdf : list F -> F)
    (x : list F) (j : nat) (g : RNG) : list F * RNG :=
  let '(delta, g1) := uniform (fneg step_size) step_size g in
  let x_prop := <[j := fadd (getitem x j) delta]> x in
  let acc_ratio := fdiv (target_pdf x_prop) (target_pdf x) in
  let '(u, g2) := uniform01 g1 in
  if fltb u acc_ratio then (<[j := getitem x_prop j]> x, g2) else (x, g2).

(** [for j in range(d)]. *)
Definition gibbs_sweep (step_size : F) (target_pdf : list F -> F) (d : nat)
    (x : list F) (g : RNG) : list F * RNG :=
  fold_left (fun s j => gibbs_update step_size target_pdf s.1 j s.2)
            (seq 0 d) (x, g).

(** [for _ in range(N)]: sweep, then append a copy of [x] to [samples]. *)
Fixpoint gibbs_loop (step_size : F) (target_pdf : list F -> F) (d : nat)
    (n : nat) (x : list F) (g : RNG) (samples : list (list F))
    : list (list F) * RNG :=
  match n with
  | O => (samples, g)
  | S n' =>
      let '(x', g') := gibbs_sweep step_size target_pdf d x g in
      gibbs_loop step_size target_pdf d n' x' g' (samples ++ [x'])
  end.

(** The list [samples] as it stands when the loops are over. *)
Definition recorded_chain (x0 : list F) (N : Z) (step_size : F)
    (target_pdf : list F -> F) (g : RNG) : list (list F) :=
  (gibbs_loop step_size target_pdf (length x0) (Z.to_nat N) x0 g []).1.

Definition gibbs_accept_reject (x0 : list F) (thinning burnin N : Z)
    (step_size : F) (target_pdf : list F -> F) (g : RNG)
    : result (list (list F)) * RNG :=
  let d := length x0 in
  let '(samples, g') :=
    gibbs_loop step_size target_pdf d (Z.to_nat N) x0 g [] in
  (samples ← slice_step thinning samples;
   Ok (slice_from burnin samples), g').

(** The state after [n] full sweeps from [(x, g)]. *)
Definition after_sweeps (step_size : F) (target_pdf : list F -> F) (d : nat)
    (n : nat) (x : list F) (g : RNG) : list F * RNG :=
  Nat.iter n (fun s => gibbs_sweep step_size target_pdf d s.1 s.2) (x, g).

(** *** importance_integration *)

(** [f(m_chain) / target_pdf(m_chain)] evaluates both functions on every
    row of the chain and divides elementwise; the estimate is the
    [np.mean] of the quotients. *)
Definition importance_integration (f target_pdf : list F -> F)
    (m_chain : list (list F)) : F :=
  let weights := zip_with fdiv (map f m_chain) (map target_pdf m_chain) in
  np_mean weights.

(** *** monte_carlo_integral *)

(** numpy broadcasting of two one-dimensional arrays against each other:
    equal lengths pair up, a single element pairs with every element of
    the other array, anything else is a [ValueError]. *)
Definition broadcast {A} (a b : list A) : result (list (A * A)) :=
  if Nat.eqb (length a) (length b) then Ok (zip a b)
  else match a, b with
       | [x], _ => Ok (map (fun y => (x, y)) b)
       | _, [y] => Ok (map (fun x => (x, y)) a)
       | _, _ => Raise ValueError
       end.

(** One row of [uniform(low, high, size=(N, d))]: coordinate [j] is
    [low[j] + (high[j] - low[j]) * u] for the next double [u]. *)
Fixpoint draw_row (low high : list F) (g : RNG) : list F * RNG :=
  match low, high with
  | l :: low', h :: high' =>
      let '(u, g1) := next_double g in
      let '(row, g2) := draw_row low' high' g1 in
      (fadd l (fmul (fsub h l) u) :: row, g2)
  | _, _ => ([], g)
  end.

(** The [N] rows, filled in row-major order. *)
Fixpoint draw_rows (n : nat) (low high : list F) (g : RNG)
    : list (list F) * RNG :=
  match n with
  | O => ([], g)
  | S n' =>
      let '(row, g1) := draw_row low high g in
      let '(rows, g2) := draw_rows n' low high g1 in
      (row :: rows, g2)
  end.

(** [np.prod(high - low)] on the arrays as [np.array] made them: in
    [int64], with wrap-around, when both hold integers, in floats
    otherwise. *)
Definition box_volume (low high : array F) : result F :=
  match low, high with
  | IntArray l, IntArray h =>
      hl ← broadcast h l;
      Ok (of_Z (np_prod_int64 (map (fun p => wrap_int64 (p.1 - p.2)) hl)))
  | _, _ =>
      hl ← broadcast (array_values high) (array_values low);
      Ok (np_prod (map (fun p => fsub p.1 p.2) hl))
  end.

(** [np.random.uniform(low, high, size=(N, d))] of the legacy generator
    converts both bounds to doubles, subtracts them (broadcasting), raises
    [OverflowError] unless every range is finite, and only then looks at
    the shape: a negative [N], or ranges that do not fill [d] columns, are
    a [ValueError].  Nothing has been drawn when it raises.  The volume
    is computed after the draws, the integrand is then applied to the
    batch of rows. *)
Definition monte_carlo_integral (integrand : list F -> F)
    (bounds : array F * array F) (N : Z) (g : RNG) : result (F * F) * RNG :=
  let d := length (array_values bounds.1) in
  let low := array_values bounds.1 in
  let high := array_values bounds.2 in
  match broadcast high low with
  | Raise e => (Raise e, g)
  | Ok hl =>
      let ranges := map (fun p => fsub p.1 p.2) hl in
      if negb (forallb fisfinite ranges) then (Raise OverflowError, g)
      else if negb (Nat.eqb (length ranges) d) then (Raise ValueError, g)
      else if (N <? 0)%Z then (Raise ValueError, g)
      else
        let '(samples, g') := draw_rows (Z.to_nat N) low (map fst hl) g in
        match box_volume bounds.1 bounds.2 with
        | Raise e => (Raise e, g')
        | Ok vol =>
            let values := map integrand samples in
            let estimate := fmul vol (np_mean values) in
            let std_error :=
              fdiv (fmul vol (np_std values)) (fsqrt (of_Z N)) in
            (Ok (estimate, std_error), g')
        end
  end.

End Sampling.

(** ** The sampler as Python executes it *)

Module Checked.
Section Checked.
Context {F : Type} `{Scalar F} `{Checks F}.
Context {RNG : Type} (next_double : RNG -> F * RNG).

(** The range [high - low] passes the checks of [Generator.uniform]. *)
Definition range_ok (low high : F) : Prop :=
  fisfinite (fsub high low) = true /\ fsignbit (fsub high low) = false.

(** Both draws of an update pass them: [uniform(-h, h)] and [uniform()],
    whose bounds are [0.0] and [1.0]. *)
Definition draws_ok (step_size : F) : Prop :=
  range_ok (fneg step_size) step_size /\ range_ok (of_Z 0) (of_Z 1).

(** [rng.uniform(low, high)] of a [Generator]: the range is computed and
    checked first, [OverflowError] unless it is finite, [ValueError] when
    its sign bit is set; then one double is drawn. *)
Definition uniform (low high : F) (g : RNG) : result F * RNG :=
  let range := fsub high low in
  if negb (fisfinite range) then (Raise OverflowError, g)
  else if fsignbit range then (Raise ValueError, g)
  else
    let '(u, g') := next_double g in
    (Ok (fadd low (fmul range u)), g').

(** [a / b]. *)
Definition truediv (k : quotient) (a b : F) : result F :=
  match k with
  | numpy_division => Ok (fdiv a b)
  | python_division =>
      if fiszero b then Raise ZeroDivisionError else Ok (fdiv a b)
  end.

(** [x[j] = v]: an [int64] array stores the truncated value. *)
Definition setitem (dt : dtype) (x : list F) (j : nat) (v : F) : list F :=
  <[j := match dt with float64 => v | int64 => fint64 v end]> x.

(** Body of the loop over [j].  An exception leaves the generator as the
    draws made so far have left it. *)
Definition gibbs_update (dt : dtype) (k : quotient) (step_size : F)
    (target_pdf : list F -> F) (x : list F) (j : nat) (g : RNG)
    : result (list F) * RNG :=
  match uniform (fneg step_size) step_size g with
  | (Raise e, g1) => (Raise e, g1)
  | (Ok delta, g1) =>
      let x_prop := setitem dt x j (fadd (getitem x j) delta) in
      match truediv k (target_pdf x_prop) (target_pdf x) with
      | Raise e => (Raise e, g1)
      | Ok acc_ratio =>
          match uniform (of_Z 0) (of_Z 1) g1 with
          | (Raise e, g2) => (Raise e, g2)
          | (Ok u, g2) =>
              if fltb u acc_ratio
              then (Ok (setitem dt x j (getitem x_prop j)), g2)
              else (Ok x, g2)
          end
      end
  end.

(** [for j in range(d)], over the indices still to visit. *)
Fixpoint gibbs_sweep (dt : dtype) (k : quotient) (step_size : F)
    (target_pdf : list F -> F) (js : list nat) (x : list F) (g : RNG)
    : result (list F) * RNG :=
  match js with
  | [] => (Ok x, g)
  | j :: js' =>
      match gibbs_update dt k step_size target_pdf x j g with
      | (Raise e, g') => (Raise e, g')
      | (Ok x', g') => gibbs_sweep dt k step_size target_pdf js' x' g'
      end
  end.

(** [for _ in range(N)]. *)
Fixpoint gibbs_loop (dt : dtype) (k : quotient) (step_size : F)
    (target_pdf : list F -> F) (d : nat) (n : nat) (x : list F) (g : RNG)
    (samples : list (list F)) : result (list (list F)) * RNG :=
  match n with
  | O => (Ok samples, g)
  | S n' =>
      match gibbs_sweep dt k step_size target_pdf (seq 0 d) x g with
      | (Raise e, g') => (Raise e, g')
      | (Ok x', g') =>
          gibbs_loop dt k step_size target_pdf d n' x' g' (samples ++ [x'])
      end
  end.

(** The call.  [k] says what [target_pdf] returns; an [int64] state is
    given to [target_pdf] as the floats of its elements. *)
Definition gibbs_accept_reject (x0 : array F) (thinning burnin N : Z)
    (step_size : F) (k : quotient) (target_pdf : list F -> F) (g : RNG)
    : result (list (list F)) * RNG :=
  let x := array_values x0 in
  let d := length x in
  match gibbs_loop (array_dtype x0) k step_size target_pdf d (Z.to_nat N)
          x g [] with
  | (Raise e, g') => (Raise e, g')
  | (Ok samples, g') =>
      (samples ← slice_step thinning samples;
       Ok (slice_from burnin samples), g')
  end.

End Checked.
End Checked.

(** ** Bounds whose volume fits their dtype *)

(** Two integer arrays have the volume of their box computed in [int64]:
    it is the volume when the product of the differences fits. *)
Definition volume_fits {F} (low high : array F) : Prop :=
  match low, high with
  | IntArray l, IntArray h =>
      (- 2 ^ 63 <= fold_right Z.mul 1 (zip_with Z.sub h l) < 2 ^ 63)%Z
  | _, _ => True
  end.

(** ** Counting draws *)

Section Draws.
Context {F : Type} {RNG : Type} (next_double : RNG -> F * RNG).

(** The generator state after [n] draws. *)
Definition advance (n : nat) (g : RNG) : RNG :=
  Nat.iter n (fun g' => (next_double g').2) g.

(** The double drawn after [n] earlier draws. *)
Definition nth_double (n : nat) (g : RNG) : F := (next_double (advance n g)).1.

End Draws.

(** The contract of a random source over the reals: every double lies in
    [[0, 1)]. *)
Definition unit_source {RNG : Type} (next_double : RNG -> R * RNG) : Prop :=
  forall g, (0 <= (next_double g).1 < 1)%R.

(** ** The functions the notebooks pass to the samplers *)

(** They call [np.exp] and use [np.pi], so they are embedded over the
    reals, with the exponential as a parameter [np_exp]: the [exp] of
    [float64] is not the real exponential, it underflows to zero on
    arguments below about [-745].  What the properties below use of it is
    collected in [exp_like]. *)
Module Notebook.
Section Notebook.
Local Open Scope R_scope.
Context (np_exp : R -> R).

(** [np.sum(x**2, axis=-1)] on one point. *)
Definition sum_squares (x : list R) : R := np_sum (map (fun v => v * v) x).

(** [target_pdf]: the standard normal density in [len(x)] dimensions. *)
Definition target_pdf (x : list R) : R :=
  np_exp (-0.5 * sum_squares x) / Rpower (2 * PI) (INR (length x) / 2).

(** [f], the function whose integral is estimated ([integrand], in the
    plain Monte Carlo notebook, is the same function). *)
Definition f (x : list R) : R := np_exp (- sum_squares x).

End Notebook.
End Notebook.

(** An exponential as a floating-point library computes it: never
    negative and never decreasing.  It may vanish. *)
Definition exp_like (np_exp : R -> R) : Prop :=
  (forall t, (0 <= np_exp t)%R)
  /\ (forall s t, (s <= t)%R -> (np_exp s <= np_exp t)%R).

(** The real exponential cut off where [float64] underflows. *)
Definition exp_underflowing (t : R) : R :=
  if Rle_dec (-745) t then exp t else 0%R.

(** ** The mathematical quantities the estimates are compared with *)

Section Statistics.
Local Open Scope R_scope.

(** Finite sum. *)
Definition Rsum (l : list R) : R := fold_right Rplus 0 l.

(** Finite product. *)
Definition Rprod (l : list R) : R := fold_right Rmult 1 l.

Definition arithmetic_mean (l : list R) : R := Rsum l / INR (length l).

(** Sum of squared deviations from the mean. *)
Definition sum_sq_dev (l : list R) : R :=
  Rsum (map (fun m => (m - arithmetic_mean l) ^ 2) l).

(** Sample variance with denominator [n - 1]. *)
Definition unbiased_variance (l : list R) : R :=
  sum_sq_dev l / (INR (length l) - 1).

(** Population standard deviation (denominator [n]). *)
Definition population_std (l : list R) : R :=
  sqrt (sum_sq_dev l / INR (length l)).

(** Volume of the box [low .. high]. *)
Definition volume (low high : list R) : R := Rprod (zip_with Rminus high low).

(** The point of the box [low .. high] that the doubles [u 0], [u 1], ...
    of the unit interval select, one double for each coordinate. *)
Definition box_point (low high : list R) (u : nat -> R) : list R :=
  imap (fun j lh => lh.1 + (lh.2 - lh.1) * u j) (zip low high).

(** [n] points of the box drawn one after the other from the doubles
    [u 0], [u 1], ... *)
Definition box_points (n : nat) (low high : list R) (u : nat -> R)
    : list (list R) :=
  map (fun i => box_point low high (fun j => u (i * length low + j)%nat))
      (seq 0 n).

(** Block [i] of length [L]: the elements [i*L .. i*L + L - 1]. *)
Definition block (series : list R) (L i : nat) : list R :=
  map (fun j => nth (i * L + j) series 0) (seq 0 L).

(** Means of the first [n] blocks of length [L]. *)
Definition block_means (series : list R) (L n : nat) : list R :=
  map (fun i => arithmetic_mean (block series L i)) (seq 0 n).

End Statistics.

(** ** Fixed inputs on which the functions are run *)

Section Fixtures.
Import PrimFloat.
Local Open Scope float_scope.

(** A random source that repeats the doubles 0.75, 0.25, 0.5, 0.125; its
    state counts the draws. *)
Definition cycle_doubles (n : nat) : float * nat :=
  (match (n mod 4)%nat with
   | 0%nat => 0.75
   | 1%nat => 0.25
   | 2%nat => 0.5
   | _ => 0.125
   end, S n).

(** The constant density [1]. *)
Definition unit_density (x : list float) : float := 1.

(** A density that vanishes where the first coordinate is negative. *)
Definition halfline_density (x : list float) : float :=
  match x with
  | a :: _ => if a <? 0 then 0 else 1
  | [] => 1
  end.

(** A real-valued random source that always yields one half. *)
Definition half_doubles (n : nat) : R * nat := ((1 / 2)%R, S n).

End Fixtures.

(** * Properties *)

(** ** Integer helpers *)

Lemma int_log2_pos q : (1 <= q)%Z -> int_log2 q = Ok (Z.log2 q).
Proof.
  intros Hq. unfold int_log2.
  destruct (Z.eqb_spec q 0) as [->|_]; [lia|].
  destruct (Z.ltb_spec q 0); [lia|reflexivity].
Qed.

Lemma int_log2_nonpos q : (q <= 0)%Z -> raises (int_log2 q) = true.
Proof.
  intros Hq. unfold int_log2.
  destruct (Z.eqb_spec q 0); [reflexivity|].
  destruct (Z.ltb_spec q 0); [reflexivity|lia].
Qed.

Lemma pow2_arange_length n : length (pow2_arange n) = Z.to_nat n.
Proof. unfold pow2_arange. by rewrite length_map, length_seq. Qed.

Lemma pow2_arange_lookup n (k : nat) :
  (Z.of_nat k < n)%Z -> pow2_arange n !! k = Some (2 ^ Z.of_nat k)%Z.
Proof.
  intros Hk. unfold pow2_arange.
  rewrite list_lookup_fmap, lookup_seq_lt by lia. reflexivity.
Qed.

Lemma pow2_arange_elem n L :
  L ∈ pow2_arange n -> exists k : nat, (Z.of_nat k < n)%Z /\ L = (2 ^ Z.of_nat k)%Z.
Proof.
  unfold pow2_arange. intros [k [-> Hk]]%list_elem_of_fmap.
  apply elem_of_seq in Hk. exists k. split; [lia|reflexivity].
Qed.

(** A candidate [2^k] leaves at least [min_blocks] blocks exactly when [k]
    does not exceed the logarithm taken by the code. *)
Lemma enough_blocks_iff N min_blocks (k : nat) :
  (1 <= min_blocks <= N)%Z ->
  (min_blocks <= N / 2 ^ Z.of_nat k <-> Z.of_nat k <= Z.log2 (N / min_blocks))%Z.
Proof.
  intros [Hm HN].
  assert (Hp : (0 < 2 ^ Z.of_nat k)%Z) by (apply Z.pow_pos_nonneg; lia).
  assert (Hq : (1 <= N / min_blocks)%Z).
  { apply Z.div_le_lower_bound; lia. }
  rewrite <- (Z.log2_le_pow2 (N / min_blocks) (Z.of_nat k)) by lia.
  split; intros Hle.
  - apply Z.div_le_lower_bound; [lia|].
    pose proof (Z.mul_div_le N (2 ^ Z.of_nat k) Hp). nia.
  - apply Z.div_le_lower_bound; [lia|].
    pose proof (Z.mul_div_le N min_blocks ltac:(lia)). nia.
Qed.

(** ** Reshaping and the blocking loop, for any scalar type *)

Section BlockingGeneric.
Context {F : Type} `{Scalar F}.

Lemma rows_of_length rows cols (a : list F) :
  length (rows_of rows cols a) = rows.
Proof. revert a. induction rows as [|r IH]; intros a; simpl; [done|by rewrite IH]. Qed.

Lemma rows_of_lookup rows cols (a : list F) (i : nat) :
  (i < rows)%nat ->
  rows_of rows cols a !! i = Some (take cols (drop (i * cols) a)).
Proof.
  revert a i. induction rows as [|r IH]; intros a i Hi; [lia|].
  destruct i as [|i]; simpl.
  - reflexivity.
  - rewrite IH by lia. by rewrite drop_drop.
Qed.

Lemma np_reshape_Ok rows cols (a : list F) :
  length a = (rows * cols)%nat -> np_reshape rows cols a = Ok (rows_of rows cols a).
Proof. intros Hlen. unfold np_reshape. by rewrite (proj2 (Nat.eqb_eq _ _) Hlen). Qed.

Lemma blocking_body_Ok (series : list F) (L : Z) :
  (0 < L)%Z ->
  blocking_body series (Z.of_nat (length series) / L) L = Ok (blocking_entry series L).
Proof.
  intros HL. unfold blocking_body, blocking_entry.
  set (N := Z.of_nat (length series)).
  assert (Hn : (0 <= N / L)%Z) by (apply Z.div_pos; lia).
  assert (Hle : (N / L * L <= N)%Z).
  { pose proof (Z.mul_div_le N L HL). lia. }
  rewrite np_reshape_Ok; [reflexivity|].
  rewrite length_take, <- Z2Nat.inj_mul by lia. lia.
Qed.

(** While every candidate block length leaves enough blocks, the loop
    appends one entry per candidate and never reaches its [break]. *)
Lemma blocking_loop_all (series : list F) min_blocks bin_sizes var_mean err_var :
  Forall (fun L => 0 < L /\ min_blocks <= Z.of_nat (length series) / L)%Z bin_sizes ->
  blocking_loop series min_blocks bin_sizes var_mean err_var
  = Ok (var_mean ++ map (fun L => (blocking_entry series L).1) bin_sizes,
        err_var ++ map (fun L => (blocking_entry series L).2) bin_sizes).
Proof.
  revert var_mean err_var.
  induction bin_sizes as [|L rest IH]; intros var_mean err_var Hall; simpl.
  - by rewrite !app_nil_r.
  - apply Forall_cons in Hall as [[HL Hn] Hrest].
    destruct (Z.ltb_spec (Z.of_nat (length series) / L) min_blocks); [lia|].
    rewrite blocking_body_Ok by done. simpl.
    rewrite IH by done. by rewrite <- !app_assoc.
Qed.

(** The loop stops at the first candidate that leaves too few blocks. *)
Lemma blocking_loop_break (series : list F) min_blocks good L rest var_mean err_var :
  Forall (fun L => 0 < L /\ min_blocks <= Z.of_nat (length series) / L)%Z good ->
  (Z.of_nat (length series) / L < min_blocks)%Z ->
  blocking_loop series min_blocks (good ++ L :: rest) var_mean err_var
  = blocking_loop series min_blocks good var_mean err_var.
Proof.
  revert var_mean err_var.
  induction good as [|G good IH]; intros var_mean err_var Hall Hbad; simpl.
  - by destruct (Z.ltb_spec (Z.of_nat (length series) / L) min_blocks); [|lia].
  - apply Forall_cons in Hall as [[HG Hn] Hgood].
    destruct (Z.ltb_spec (Z.of_nat (length series) / G) min_blocks); [lia|].
    rewrite blocking_body_Ok by done. simpl. by apply IH.
Qed.

Lemma pow2_arange_enough (series : list F) min_blocks :
  (1 <= min_blocks <= Z.of_nat (length series))%Z ->
  Forall (fun L => 0 < L /\ min_blocks <= Z.of_nat (length series) / L)%Z
    (pow2_arange (Z.log2 (Z.of_nat (length series) / min_blocks) + 1)).
Proof.
  intros Hm. apply Forall_forall. intros L [k [Hk ->]]%pow2_arange_elem.
  split; [apply Z.pow_pos_nonneg; lia|].
  apply enough_blocks_iff; lia.
Qed.

(** With at least [min_blocks] elements the analysis returns, and the
    curve has one entry per power of two up to [N // min_blocks]. *)
Lemma blocking_variance_Ok (series : list F) min_blocks :
  (1 <= min_blocks <= Z.of_nat (length series))%Z ->
  let bin_sizes := pow2_arange (Z.log2 (Z.of_nat (length series) / min_blocks) + 1) in
  blocking_variance series min_blocks
  = Ok (bin_sizes,
        map (fun L => (blocking_entry series L).1) bin_sizes,
        map (fun L => (blocking_entry series L).2) bin_sizes).
Proof.
  intros Hm bin_sizes. unfold blocking_variance, floordiv.
  destruct (Z.eqb_spec min_blocks 0); [lia|]. simpl.
  rewrite int_log2_pos by (apply Z.div_le_lower_bound; lia). simpl.
  rewrite blocking_loop_all by by apply pow2_arange_enough.
  simpl. fold bin_sizes. rewrite length_map, firstn_all. reflexivity.
Qed.

(** Otherwise an exception escapes before the loop is entered. *)
Lemma blocking_variance_Raise (series : list F) min_blocks :
  ~ (1 <= min_blocks <= Z.of_nat (length series))%Z ->
  raises (blocking_variance series min_blocks) = true.
Proof.
  intros Hm. unfold blocking_variance, floordiv.
  destruct (Z.eqb_spec min_blocks 0); [reflexivity|]. simpl.
  assert (Hq : (Z.of_nat (length series) / min_blocks <= 0)%Z).
  { destruct (Z.le_gt_cases min_blocks 0).
    - pose proof (Z.div_mod (Z.of_nat (length series)) min_blocks ltac:(lia)).
      pose proof (Z.mod_neg_bound (Z.of_nat (length series)) min_blocks ltac:(lia)).
      nia.
    - rewrite Z.div_small by lia. lia. }
  pose proof (int_log2_nonpos _ Hq) as Hr.
  destruct (int_log2 _); [done|reflexivity].
Qed.

End BlockingGeneric.

(** ** The reductions over the reals *)

Section RealReductions.
Local Open Scope R_scope.

Lemma fold_left_Rplus (l : list R) (a : R) : fold_left Rplus l a = a + Rsum l.
Proof.
  revert a. induction l as [|x l IH]; intros a; simpl.
  - lra.
  - rewrite IH. lra.
Qed.

Lemma np_sum_R (l : list R) : np_sum l = Rsum l.
Proof. unfold np_sum. simpl. rewrite fold_left_Rplus. lra. Qed.

Lemma fold_left_Rmult (l : list R) (a : R) : fold_left Rmult l a = a * Rprod l.
Proof.
  revert a. induction l as [|x l IH]; intros a; simpl.
  - lra.
  - rewrite IH. lra.
Qed.

Lemma np_prod_R (l : list R) : np_prod l = Rprod l.
Proof. unfold np_prod. simpl. rewrite fold_left_Rmult. lra. Qed.

Lemma np_mean_R (l : list R) : np_mean l = arithmetic_mean l.
Proof.
  unfold np_mean, arithmetic_mean. simpl.
  by rewrite np_sum_R, <- INR_IZR_INZ.
Qed.

Lemma sq_dev_R (l : list R) :
  np_sum (map (fun v => fmul v v) (map (fun v => fsub v (np_mean l)) l)) = sum_sq_dev l.
Proof.
  rewrite np_sum_R, np_mean_R. unfold sum_sq_dev. rewrite map_map.
  f_equal. apply map_ext. intros m. simpl. ring.
Qed.

(** [var(ddof=1)] is the sample variance with denominator [n - 1]. *)
Lemma np_var_1_R (l : list R) : l <> [] -> np_var 1 l = unbiased_variance l.
Proof.
  intros Hl. unfold np_var, unbiased_variance. rewrite sq_dev_R. simpl.
  f_equal. destruct l as [|x l]; [done|].
  rewrite Z.max_l by (simpl length; lia).
  by rewrite minus_IZR, <- INR_IZR_INZ.
Qed.

(** [std()] is the population standard deviation. *)
Lemma np_std_R (l : list R) : np_std l = population_std l.
Proof.
  unfold np_std, np_var, population_std. rewrite sq_dev_R. simpl.
  rewrite Z.sub_0_r, Z.max_l by lia. by rewrite <- INR_IZR_INZ.
Qed.

(** A row of the reshaped prefix is the block of the same index. *)
Lemma row_is_block (series : list R) (n L i : nat) :
  (i < n)%nat -> (n * L <= length series)%nat ->
  take L (drop (i * L) (take (n * L) series)) = block series L i.
Proof.
  intros Hi Hlen. unfold block.
  assert (HiL : (i * L + L <= n * L)%nat) by nia.
  apply list_eq. intros j.
  rewrite list_lookup_fmap.
  destruct (decide (j < L)%nat) as [Hj|Hj].
  - rewrite lookup_take_lt, lookup_drop, lookup_take_lt by lia.
    rewrite lookup_seq_lt by lia. simpl.
    destruct (lookup_lt_is_Some_2 series (i * L + j)) as [x Hx]; [lia|].
    rewrite Hx. f_equal. symmetry. by apply nth_lookup_Some.
  - rewrite lookup_take_ge, lookup_seq_ge by lia. reflexivity.
Qed.

Lemma rows_are_blocks (series : list R) (n L : nat) :
  (n * L <= length series)%nat ->
  rows_of n L (take (n * L) series) = map (block series L) (seq 0 n).
Proof.
  intros Hlen. apply list_eq. intros i.
  rewrite list_lookup_fmap.
  destruct (decide (i < n)%nat) as [Hi|Hi].
  - rewrite rows_of_lookup, lookup_seq_lt by lia. simpl.
    f_equal. by apply row_is_block.
  - rewrite lookup_seq_ge by lia.
    apply lookup_ge_None. rewrite rows_of_length. lia.
Qed.

Lemma block_means_length series L n : length (block_means series L n) = n.
Proof. unfold block_means. by rewrite length_map, length_seq. Qed.

(** The entry computed for block length [L], in the terms of the
    statistics it estimates. *)
Lemma blocking_entry_R (series : list R) (L : Z) :
  (0 < L)%Z -> (1 <= Z.of_nat (length series) / L)%Z ->
  let n := (Z.of_nat (length series) / L)%Z in
  let s2 := unbiased_variance (block_means series (Z.to_nat L) (Z.to_nat n)) in
  blocking_entry series L
  = (s2 / IZR n, s2 / IZR n * sqrt (2 / (IZR n - 1))).
Proof.
  intros HL Hn n s2. unfold blocking_entry. fold n.
  assert (Hle : (n * L <= Z.of_nat (length series))%Z).
  { pose proof (Z.mul_div_le (Z.of_nat (length series)) L HL). unfold n. lia. }
  rewrite Z2Nat.inj_mul by lia.
  rewrite rows_are_blocks by (rewrite <- Z2Nat.inj_mul by lia; lia).
  rewrite map_map.
  assert (Hmeans : map (fun x => np_mean (block series (Z.to_nat L) x)) (seq 0 (Z.to_nat n))
                   = block_means series (Z.to_nat L) (Z.to_nat n)).
  { unfold block_means. apply map_ext. intros i. apply np_mean_R. }
  rewrite Hmeans, np_var_1_R.
  - fold s2. simpl. by rewrite minus_IZR.
  - intros Hnil. apply (f_equal length) in Hnil.
    rewrite block_means_length in Hnil. simpl in Hnil. lia.
Qed.

End RealReductions.

(** ** Slicing *)

Lemma ceil_div_spec a b :
  (0 < b)%Z -> ((ceil_div a b - 1) * b < a <= ceil_div a b * b)%Z.
Proof.
  intros Hb. unfold ceil_div.
  pose proof (Z.div_mod (a + b - 1) b ltac:(lia)).
  pose proof (Z.mod_pos_bound (a + b - 1) b Hb). nia.
Qed.

Lemma ceil_div_unique a b q :
  (0 < b)%Z -> ((q - 1) * b < a <= q * b)%Z -> ceil_div a b = q.
Proof.
  intros Hb Hq. pose proof (ceil_div_spec a b Hb). nia.
Qed.

Section SlicingFacts.
Context {A : Type} `{Inhabited A}.

Lemma every_nth_from_lookup (t skip : nat) (l : list A) (i : nat) :
  (1 <= t)%nat -> every_nth_from t skip l !! i = l !! (skip + i * t)%nat.
Proof.
  intros Ht. revert skip i.
  induction l as [|x l IH]; intros skip i; [done|].
  destruct skip as [|s]; simpl.
  - destruct i as [|i]; [done|]. simpl. rewrite IH.
    replace (t + i * t)%nat with (S (t - 1 + i * t)) by lia. done.
  - by rewrite IH.
Qed.

Lemma every_nth_lookup (t : nat) (l : list A) (i : nat) :
  (1 <= t)%nat -> every_nth t l !! i = l !! (i * t)%nat.
Proof. intros Ht. unfold every_nth. by rewrite every_nth_from_lookup. Qed.

(** Number of items of [l[::step]] for a positive step. *)
Lemma slicelength_ceil (len step : Z) :
  (0 <= len)%Z -> (1 <= step)%Z ->
  (if (0 <? len)%Z then ((len - 1) / Z.abs step + 1)%Z else 0%Z) = ceil_div len step.
Proof.
  intros Hlen Hstep. symmetry. apply ceil_div_unique; [lia|].
  rewrite Z.abs_eq by lia.
  destruct (Z.ltb_spec 0 len); [|lia].
  pose proof (Z.div_mod (len - 1) step ltac:(lia)).
  pose proof (Z.mod_pos_bound (len - 1) step ltac:(lia)). nia.
Qed.

Lemma slice_step_pos_lookup (step : Z) (l : list A) :
  (1 <= step)%Z ->
  exists r, slice_step step l = Ok r
    /\ length r = Z.to_nat (ceil_div (Z.of_nat (length l)) step)
    /\ forall i : nat, r !! i = l !! (i * Z.to_nat step)%nat.
Proof.
  intros Hstep. unfold slice_step.
  destruct (Z.eqb_spec step 0); [lia|].
  destruct (Z.ltb_spec 0 step); [|lia].
  rewrite slicelength_ceil by lia.
  pose proof (ceil_div_spec (Z.of_nat (length l)) step ltac:(lia)) as Hc.
  eexists. split; [reflexivity|]. split.
  - by rewrite length_map, length_seq.
  - intros i. rewrite list_lookup_fmap.
    destruct (decide (i < Z.to_nat (ceil_div (Z.of_nat (length l)) step))%nat) as [Hi|Hi].
    + rewrite lookup_seq_lt by done. simpl.
      replace (Z.to_nat (0 + Z.of_nat i * step)) with (i * Z.to_nat step)%nat by nia.
      symmetry. apply list_lookup_lookup_total_lt. nia.
    + rewrite lookup_seq_ge by lia. simpl. symmetry.
      apply lookup_ge_None. nia.
Qed.

(** For a positive step, slicing keeps every [step]-th element. *)
Lemma slice_step_pos (step : Z) (l : list A) :
  (1 <= step)%Z -> slice_step step l = Ok (every_nth (Z.to_nat step) l).
Proof.
  intros Hstep.
  destruct (slice_step_pos_lookup step l Hstep) as (r & -> & _ & Hr).
  f_equal. apply list_eq. intros i.
  rewrite Hr, every_nth_lookup by lia. done.
Qed.

Lemma every_nth_length (t : nat) (l : list A) :
  (1 <= t)%nat ->
  length (every_nth t l) = Z.to_nat (ceil_div (Z.of_nat (length l)) (Z.of_nat t)).
Proof.
  intros Ht.
  destruct (slice_step_pos_lookup (Z.of_nat t) l ltac:(lia)) as (r & Hr & Hlen & _).
  rewrite slice_step_pos in Hr by lia. rewrite Nat2Z.id in Hr.
  by injection Hr as ->.
Qed.

(** A step that is not zero never raises. *)
Lemma slice_step_nonzero (step : Z) (l : list A) :
  step <> 0%Z -> raises (slice_step step l) = false.
Proof.
  intros Hstep. unfold slice_step.
  by destruct (Z.eqb_spec step 0).
Qed.

Lemma slice_from_nonneg (start : Z) (l : list A) :
  (0 <= start)%Z -> slice_from start l = drop (Z.to_nat start) l.
Proof.
  intros Hs. unfold slice_from.
  destruct (Z.ltb_spec start 0); [lia|].
  destruct (Z.le_gt_cases start (Z.of_nat (length l))).
  - by rewrite Z.min_l.
  - rewrite Z.min_r, Nat2Z.id by lia.
    by rewrite !drop_ge by lia.
Qed.

End SlicingFacts.

(** ** The sampler, for any scalar type and random source *)

Section GibbsFacts.
Context {F : Type} `{Scalar F}.
Context {RNG : Type} (next_double : RNG -> F * RNG).
Implicit Types (x : list F) (g : RNG) (target_pdf : list F -> F).

(** Writing back the proposed coordinate turns the state into the
    proposal. *)
Lemma commit_is_proposal x (j : nat) (v : F) :
  (j < length x)%nat -> <[j := getitem (<[j := v]> x) j]> x = <[j := v]> x.
Proof.
  intros Hj. f_equal. unfold getitem.
  apply nth_lookup_Some. by apply list_lookup_insert_eq.
Qed.

(** The update returns the proposal or the state it started from,
    according to the comparison of the second draw with the ratio. *)
Lemma gibbs_update_decision step_size target_pdf x (j : nat) g :
  (j < length x)%nat ->
  let draw1 := uniform next_double (fneg step_size) step_size g in
  let draw2 := uniform01 next_double draw1.2 in
  let x_prop := <[j := fadd (getitem x j) draw1.1]> x in
  let r := fdiv (target_pdf x_prop) (target_pdf x) in
  gibbs_update next_double step_size target_pdf x j g
  = (if fltb draw2.1 r then x_prop else x, draw2.2).
Proof.
  intros Hj draw1 draw2 x_prop r.
  unfold gibbs_update. fold draw1.
  destruct draw1 as [delta g1] eqn:Hd1. cbn [fst snd] in *.
  fold draw2. destruct draw2 as [u g2] eqn:Hd2. cbn [fst snd].
  fold x_prop. fold r. destruct (fltb u r); [|done].
  f_equal. by apply commit_is_proposal.
Qed.

(** The update returns the proposal when the comparison succeeds and the
    state it started from otherwise, also for an index out of range. *)
Lemma gibbs_update_cases step_size target_pdf x (j : nat) g :
  let draw1 := uniform next_double (fneg step_size) step_size g in
  let draw2 := uniform01 next_double draw1.2 in
  let x_prop := <[j := fadd (getitem x j) draw1.1]> x in
  let r := fdiv (target_pdf x_prop) (target_pdf x) in
  gibbs_update next_double step_size target_pdf x j g
  = (if fltb draw2.1 r then x_prop else x, draw2.2).
Proof.
  intros draw1 draw2 x_prop r.
  destruct (decide (j < length x)%nat) as [Hj|Hj].
  - by apply gibbs_update_decision.
  - unfold gibbs_update. fold draw1.
    destruct draw1 as [delta g1] eqn:Hd1. cbn [fst snd] in *.
    fold draw2. destruct draw2 as [u g2] eqn:Hd2. cbn [fst snd].
    fold x_prop. fold r. destruct (fltb u r); [|done].
    f_equal. unfold x_prop. by rewrite !list_insert_ge by lia.
Qed.

Lemma gibbs_update_length step_size target_pdf x (j : nat) g :
  length (gibbs_update next_double step_size target_pdf x j g).1 = length x.
Proof.
  unfold gibbs_update, uniform01, uniform.
  destruct (next_double g) as [u0 g1].
  destruct (next_double g1) as [u1 g2].
  destruct (fltb _ _); simpl; [apply length_insert|done].
Qed.

Lemma gibbs_sweep_length step_size target_pdf (d : nat) x g :
  length (gibbs_sweep next_double step_size target_pdf d x g).1 = length x.
Proof.
  unfold gibbs_sweep. generalize (seq 0 d). intros js. revert x g.
  induction js as [|j js IH]; intros x g; simpl; [done|].
  destruct (gibbs_update next_double step_size target_pdf x j g) as [x' g'] eqn:Hu.
  simpl. rewrite IH.
  change x' with (x', g').1. rewrite <- Hu. apply gibbs_update_length.
Qed.

Lemma after_sweeps_succ step_size target_pdf (d n : nat) x g :
  after_sweeps next_double step_size target_pdf d (S n) x g
  = let s := gibbs_sweep next_double step_size target_pdf d x g in
    after_sweeps next_double step_size target_pdf d n s.1 s.2.
Proof.
  unfold after_sweeps. rewrite Nat.iter_succ_r. simpl.
  by destruct (gibbs_sweep next_double step_size target_pdf d x g).
Qed.

(** The loop appends, sweep after sweep, the state reached so far. *)
Lemma gibbs_loop_spec step_size target_pdf (d n : nat) x g samples :
  gibbs_loop next_double step_size target_pdf d n x g samples
  = (samples ++ map (fun i => (after_sweeps next_double step_size target_pdf d (S i) x g).1)
                    (seq 0 n),
     (after_sweeps next_double step_size target_pdf d n x g).2).
Proof.
  revert x g samples. induction n as [|n IH]; intros x g samples.
  - simpl. by rewrite app_nil_r.
  - cbn [gibbs_loop].
    destruct (gibbs_sweep next_double step_size target_pdf d x g) as [x' g'] eqn:Hs.
    rewrite IH, <- app_assoc. f_equal.
    + f_equal. cbn [seq map app]. f_equal.
      * unfold after_sweeps. simpl. by rewrite Hs.
      * rewrite <- seq_shift, map_map. apply map_ext. intros i.
        by rewrite (after_sweeps_succ _ _ _ (S i)), Hs.
    + by rewrite after_sweeps_succ, Hs.
Qed.

Lemma recorded_chain_length x0 N step_size target_pdf g :
  length (recorded_chain next_double x0 N step_size target_pdf g) = Z.to_nat N.
Proof.
  unfold recorded_chain. rewrite gibbs_loop_spec. simpl.
  by rewrite length_map, length_seq.
Qed.

Lemma recorded_chain_lookup x0 N step_size target_pdf g (i : nat) :
  (i < Z.to_nat N)%nat ->
  recorded_chain next_double x0 N step_size target_pdf g !! i
  = Some (after_sweeps next_double step_size target_pdf (length x0) (S i) x0 g).1.
Proof.
  intros Hi. unfold recorded_chain. rewrite gibbs_loop_spec.
  cbn [fst app]. rewrite list_lookup_fmap, lookup_seq_lt by done. done.
Qed.

(** The returned value is the two slices applied to the recorded chain. *)
Lemma gibbs_accept_reject_slices x0 thinning burnin N step_size target_pdf g :
  (gibbs_accept_reject next_double x0 thinning burnin N step_size target_pdf g).1
  = (samples ← slice_step thinning
                  (recorded_chain next_double x0 N step_size target_pdf g);
     Ok (slice_from burnin samples)).
Proof.
  unfold gibbs_accept_reject, recorded_chain.
  by destruct (gibbs_loop _ _ _ _ _ _ _ _).
Qed.

End GibbsFacts.

(** ** Drawing points and weighting samples *)

Section EstimatorFacts.
Context {F : Type} `{Scalar F}.
Context {RNG : Type} (next_double : RNG -> F * RNG).

Lemma weights_elementwise (f target_pdf : list F -> F) (m_chain : list (list F)) :
  zip_with fdiv (map f m_chain) (map target_pdf m_chain)
  = map (fun x => fdiv (f x) (target_pdf x)) m_chain.
Proof. induction m_chain as [|x m_chain IH]; simpl; [done|by rewrite IH]. Qed.

Lemma broadcast_same {A} (a b : list A) :
  length a = length b -> broadcast a b = Ok (zip a b).
Proof. intros Hlen. unfold broadcast. by rewrite Hlen, Nat.eqb_refl. Qed.

Lemma advance_add (a b : nat) (g : RNG) :
  advance next_double (a + b) g = advance next_double b (advance next_double a g).
Proof. unfold advance. rewrite Nat.add_comm. apply Nat.iter_add. Qed.

Lemma advance_succ (n : nat) (g : RNG) :
  advance next_double (S n) g = advance next_double n (next_double g).2.
Proof. unfold advance. by rewrite Nat.iter_succ_r. Qed.

Lemma uniform_advance (low high : F) (g : RNG) :
  (uniform next_double low high g).2 = advance next_double 1 g.
Proof. unfold uniform, advance. simpl. by destruct (next_double g). Qed.

Lemma nth_double_advance (a b : nat) (g : RNG) :
  nth_double next_double b (advance next_double a g)
  = nth_double next_double (a + b) g.
Proof. unfold nth_double. by rewrite advance_add. Qed.

Lemma draw_row_advance (low high : list F) (g : RNG) :
  length high = length low ->
  (draw_row next_double low high g).2 = advance next_double (length low) g.
Proof.
  revert high g. induction low as [|l low IH]; intros [|h high] g Hlen;
    try done.
  cbn [draw_row length]. rewrite advance_succ.
  destruct (next_double g) as [u g1]. cbn [snd].
  specialize (IH high g1 ltac:(simpl in Hlen; lia)).
  by destruct (draw_row next_double low high g1) as [row g2].
Qed.

Lemma draw_rows_advance (n : nat) (low high : list F) (g : RNG) :
  length high = length low ->
  (draw_rows next_double n low high g).2
  = advance next_double (n * length low) g.
Proof.
  intros Hlen. revert g. induction n as [|n IH]; intros g; [done|].
  cbn [draw_rows].
  pose proof (draw_row_advance low high g Hlen) as Hrow.
  destruct (draw_row next_double low high g) as [row g1]. cbn [snd] in Hrow.
  specialize (IH g1).
  destruct (draw_rows next_double n low high g1) as [rows g2]. cbn [snd] in *.
  rewrite IH, Hrow. symmetry. apply advance_add.
Qed.

(** Coordinate [j] of a drawn row is made from the [j]-th double drawn
    for it. *)
Lemma draw_row_coordinates (low high : list F) (g : RNG) :
  (draw_row next_double low high g).1
  = imap (fun j lh => fadd lh.1 (fmul (fsub lh.2 lh.1) (nth_double next_double j g)))
         (zip low high).
Proof.
  revert high g. induction low as [|l low IH]; intros [|h high] g; try done.
  cbn [draw_row zip zip_with imap].
  specialize (IH high (next_double g).2).
  unfold nth_double at 1. change (advance next_double 0 g) with g.
  destruct (next_double g) as [u g1] eqn:Hg. cbn [fst snd] in *.
  destruct (draw_row next_double low high g1) as [row g2]. cbn [fst] in *.
  f_equal. rewrite IH. apply imap_ext. intros j [l' h'] _. cbn [fst snd compose].
  unfold nth_double. by rewrite advance_succ, Hg.
Qed.

(** Row [i] of the batch is made from the doubles [i * d], ...,
    [i * d + d - 1], [d] being the number of columns. *)
Lemma draw_rows_coordinates (n : nat) (low high : list F) (g : RNG) :
  length high = length low ->
  (draw_rows next_double n low high g).1
  = map (fun i =>
           imap (fun j lh =>
                   fadd lh.1 (fmul (fsub lh.2 lh.1)
                                (nth_double next_double (i * length low + j) g)))
                (zip low high))
        (seq 0 n).
Proof.
  intros Hlen. revert g. induction n as [|n IH]; intros g; [done|].
  cbn [draw_rows seq map].
  pose proof (draw_row_coordinates low high g) as Hrow.
  pose proof (draw_row_advance low high g Hlen) as Hadv.
  destruct (draw_row next_double low high g) as [row g1]. cbn [fst snd] in *.
  specialize (IH g1).
  destruct (draw_rows next_double n low high g1) as [rows g2]. cbn [fst] in *.
  f_equal; [done|].
  rewrite IH, <- seq_shift, map_map. apply map_ext. intros i.
  apply imap_ext. intros j lh _. cbn beta.
  rewrite Hadv, nth_double_advance. do 3 f_equal. lia.
Qed.

End EstimatorFacts.

(** ** The checked call *)

Section CheckedFacts.
Context {F : Type} `{Scalar F} `{Checks F}.
Context {RNG : Type} (next_double : RNG -> F * RNG).
Implicit Types (x : list F) (g : RNG) (target_pdf : list F -> F).

Lemma checked_uniform_Ok (low high : F) g :
  Checked.range_ok low high ->
  Checked.uniform next_double low high g
  = (Ok (uniform next_double low high g).1, (uniform next_double low high g).2).
Proof.
  intros [Hfin Hsign]. unfold Checked.uniform, uniform.
  rewrite Hfin, Hsign. cbn [negb]. by destruct (next_double g).
Qed.

Lemma checked_uniform_Raise (low high : F) g :
  ~ Checked.range_ok low high ->
  Checked.uniform next_double low high g
  = (Raise (if fisfinite (fsub high low) then ValueError else OverflowError), g).
Proof.
  intros Hbad. unfold Checked.uniform, Checked.range_ok in *.
  destruct (fisfinite (fsub high low)); [|done]. cbn [negb].
  destruct (fsignbit (fsub high low)); [done|]. by destruct Hbad.
Qed.

(** With draws that pass the checks and a quotient that does not raise,
    the update raises nothing, whatever the dtype of the state. *)
Lemma checked_gibbs_update_Ok (dt : dtype) (k : quotient) step_size target_pdf
    x (j : nat) g :
  Checked.range_ok (fneg step_size) step_size ->
  Checked.range_ok (of_Z 0) (of_Z 1) ->
  (k = numpy_division \/ fiszero (target_pdf x) = false) ->
  let draw1 := uniform next_double (fneg step_size) step_size g in
  let draw2 := uniform01 next_double draw1.2 in
  let x_prop := Checked.setitem dt x j (fadd (getitem x j) draw1.1) in
  let r := fdiv (target_pdf x_prop) (target_pdf x) in
  Checked.gibbs_update next_double dt k step_size target_pdf x j g
  = (Ok (if fltb draw2.1 r then Checked.setitem dt x j (getitem x_prop j) else x),
     draw2.2).
Proof.
  intros Hh H01 Hk draw1 draw2 x_prop r. unfold Checked.gibbs_update.
  rewrite (checked_uniform_Ok _ _ _ Hh). fold draw1. fold x_prop.
  assert (Hq : Checked.truediv k (target_pdf x_prop) (target_pdf x) = Ok r).
  { unfold Checked.truediv. destruct k; [done|].
    destruct Hk as [Hk|Hk]; [done|]. by rewrite Hk. }
  rewrite Hq, (checked_uniform_Ok _ _ _ H01).
  change (uniform next_double (of_Z 0) (of_Z 1) draw1.2) with draw2.
  by destruct (fltb draw2.1 r).
Qed.

Lemma checked_gibbs_update_numpy (dt : dtype) step_size target_pdf x (j : nat) g :
  Checked.range_ok (fneg step_size) step_size ->
  Checked.range_ok (of_Z 0) (of_Z 1) ->
  let draw1 := uniform next_double (fneg step_size) step_size g in
  let draw2 := uniform01 next_double draw1.2 in
  let x_prop := Checked.setitem dt x j (fadd (getitem x j) draw1.1) in
  let r := fdiv (target_pdf x_prop) (target_pdf x) in
  Checked.gibbs_update next_double dt numpy_division step_size target_pdf x j g
  = (Ok (if fltb draw2.1 r then Checked.setitem dt x j (getitem x_prop j) else x),
     draw2.2).
Proof. intros Hh H01. apply checked_gibbs_update_Ok; auto. Qed.

(** The quotient of two Python floats by a zero density raises, after the
    one draw made for the proposal. *)
Lemma checked_gibbs_update_python_zero (dt : dtype) step_size target_pdf
    x (j : nat) g :
  Checked.range_ok (fneg step_size) step_size ->
  fiszero (target_pdf x) = true ->
  Checked.gibbs_update next_double dt python_division step_size target_pdf x j g
  = (Raise ZeroDivisionError, (next_double g).2).
Proof.
  intros Hh Hz. unfold Checked.gibbs_update.
  rewrite (checked_uniform_Ok _ _ _ Hh). cbn [Checked.truediv]. rewrite Hz.
  unfold uniform. by destruct (next_double g).
Qed.

(** On a float state it is the update of the plain embedding. *)
Lemma checked_gibbs_update_in_contract step_size target_pdf x (j : nat) g :
  Checked.range_ok (fneg step_size) step_size ->
  Checked.range_ok (of_Z 0) (of_Z 1) ->
  Checked.gibbs_update next_double float64 numpy_division step_size target_pdf x j g
  = (Ok (gibbs_update next_double step_size target_pdf x j g).1,
     (gibbs_update next_double step_size target_pdf x j g).2).
Proof.
  intros Hh H01. rewrite checked_gibbs_update_numpy by done.
  unfold gibbs_update, Checked.setitem.
  destruct (uniform next_double (fneg step_size) step_size g) as [delta g1].
  cbn [fst snd].
  destruct (uniform01 next_double g1) as [u g2]. cbn [fst snd].
  by destruct (fltb u _).
Qed.

Lemma checked_gibbs_sweep_in_contract step_size target_pdf (js : list nat) x g :
  Checked.range_ok (fneg step_size) step_size ->
  Checked.range_ok (of_Z 0) (of_Z 1) ->
  let s := fold_left (fun s j => gibbs_update next_double step_size target_pdf s.1 j s.2)
             js (x, g) in
  Checked.gibbs_sweep next_double float64 numpy_division step_size target_pdf js x g
  = (Ok s.1, s.2).
Proof.
  intros Hh H01. revert x g. induction js as [|j js IH]; intros x g; [done|].
  cbn [Checked.gibbs_sweep fold_left fst snd].
  rewrite checked_gibbs_update_in_contract by done.
  destruct (gibbs_update next_double step_size target_pdf x j g) as [x' g'].
  cbn [fst snd]. apply IH.
Qed.

Lemma checked_gibbs_loop_in_contract step_size target_pdf (d n : nat) x g samples :
  Checked.range_ok (fneg step_size) step_size ->
  Checked.range_ok (of_Z 0) (of_Z 1) ->
  Checked.gibbs_loop next_double float64 numpy_division step_size target_pdf d n x g
    samples
  = (Ok (gibbs_loop next_double step_size target_pdf d n x g samples).1,
     (gibbs_loop next_double step_size target_pdf d n x g samples).2).
Proof.
  intros Hh H01. revert x g samples.
  induction n as [|n IH]; intros x g samples; [done|].
  cbn [Checked.gibbs_loop gibbs_loop].
  rewrite checked_gibbs_sweep_in_contract by done. cbn zeta.
  change (fold_left _ (seq 0 d) (x, g))
    with (gibbs_sweep next_double step_size target_pdf d x g).
  destruct (gibbs_sweep next_double step_size target_pdf d x g) as [x' g'].
  apply IH.
Qed.

(** Inside the contract the call as Python executes it is the plain
    embedding: no draw and no quotient raises. *)
Lemma gibbs_accept_reject_in_contract (x0 : list F) (thinning burnin N : Z)
    step_size target_pdf g :
  Checked.range_ok (fneg step_size) step_size ->
  Checked.range_ok (of_Z 0) (of_Z 1) ->
  Checked.gibbs_accept_reject next_double (FloatArray x0) thinning burnin N
    step_size numpy_division target_pdf g
  = gibbs_accept_reject next_double x0 thinning burnin N step_size target_pdf g.
Proof.
  intros Hh H01. unfold Checked.gibbs_accept_reject, gibbs_accept_reject.
  cbn [array_values array_dtype].
  rewrite checked_gibbs_loop_in_contract by done.
  by destruct (gibbs_loop _ _ _ _ _ _ _ _).
Qed.

(** Each update that raises nothing has drawn two doubles, each sweep
    two for every coordinate. *)
Lemma checked_gibbs_sweep_numpy (dt : dtype) step_size target_pdf
    (js : list nat) x g :
  Checked.range_ok (fneg step_size) step_size ->
  Checked.range_ok (of_Z 0) (of_Z 1) ->
  exists x',
    Checked.gibbs_sweep next_double dt numpy_division step_size target_pdf js x g
    = (Ok x', advance next_double (2 * length js) g)
    /\ length x' = length x.
Proof.
  intros Hh H01. revert x g. induction js as [|j js IH]; intros x g.
  - by exists x.
  - cbn [Checked.gibbs_sweep].
    rewrite checked_gibbs_update_numpy by done. cbn zeta.
    set (x1 := if fltb _ _ then _ else x).
    assert (Hx1 : length x1 = length x).
    { unfold x1, Checked.setitem. destruct (fltb _ _); [|done].
      apply length_insert. }
    destruct (IH x1 (uniform01 next_double
                       (uniform next_double (fneg step_size) step_size g).2).2)
      as (x' & -> & Hlen).
    exists x'. split; [|congruence]. f_equal.
    unfold uniform01. rewrite !uniform_advance, <- !advance_add.
    f_equal. simpl. lia.
Qed.

Lemma checked_gibbs_loop_numpy (dt : dtype) step_size target_pdf (d n : nat)
    x g samples :
  Checked.range_ok (fneg step_size) step_size ->
  Checked.range_ok (of_Z 0) (of_Z 1) ->
  exists recorded,
    Checked.gibbs_loop next_double dt numpy_division step_size target_pdf d n x g
      samples
    = (Ok (samples ++ recorded), advance next_double (2 * d * n) g)
    /\ length recorded = n
    /\ Forall (fun s => length s = length x) recorded.
Proof.
  intros Hh H01. revert x g samples.
  induction n as [|n IH]; intros x g samples.
  - exists []. rewrite app_nil_r, Nat.mul_0_r. by repeat split.
  - cbn [Checked.gibbs_loop].
    destruct (checked_gibbs_sweep_numpy dt step_size target_pdf (seq 0 d) x g Hh H01)
      as (x' & -> & Hx').
    destruct (IH x' (advance next_double (2 * length (seq 0 d)) g) (samples ++ [x']))
      as (recorded & -> & Hlen & Hall).
    exists (x' :: recorded). rewrite <- app_assoc. split; [|split].
    + f_equal. rewrite length_seq.
      replace (2 * d * S n)%nat with (2 * d + 2 * d * n)%nat by lia.
      by rewrite advance_add.
    + simpl. lia.
    + constructor; [done|]. eapply Forall_impl; [exact Hall|].
      intros s Hs. cbn beta in *. congruence.
Qed.

(** A property of the state that every update preserves holds of every
    recorded state. *)
Lemma checked_gibbs_sweep_invariant (P : list F -> Prop) (dt : dtype)
    (k : quotient) step_size target_pdf (js : list nat) x g x' g' :
  (forall y j g1 y' g2,
     P y ->
     Checked.gibbs_update next_double dt k step_size target_pdf y j g1 = (Ok y', g2) ->
     P y') ->
  P x ->
  Checked.gibbs_sweep next_double dt k step_size target_pdf js x g = (Ok x', g') ->
  P x'.
Proof.
  intros Hstep. revert x g. induction js as [|j js IH]; intros x g Hx Hrun.
  - cbn in Hrun. by injection Hrun as <- _.
  - cbn [Checked.gibbs_sweep] in Hrun.
    destruct (Checked.gibbs_update next_double dt k step_size target_pdf x j g)
      as [[y|e] g1] eqn:Hu; [|done].
    eapply IH; [|exact Hrun]. by eapply Hstep.
Qed.

Lemma checked_gibbs_loop_invariant (P : list F -> Prop) (dt : dtype)
    (k : quotient) step_size target_pdf (d n : nat) x g samples r g' :
  (forall y j g1 y' g2,
     P y ->
     Checked.gibbs_update next_double dt k step_size target_pdf y j g1 = (Ok y', g2) ->
     P y') ->
  P x -> Forall P samples ->
  Checked.gibbs_loop next_double dt k step_size target_pdf d n x g samples
    = (Ok r, g') ->
  Forall P r.
Proof.
  intros Hstep. revert x g samples.
  induction n as [|n IH]; intros x g samples Hx Hs Hrun.
  - cbn in Hrun. by injection Hrun as <- _.
  - cbn [Checked.gibbs_loop] in Hrun.
    destruct (Checked.gibbs_sweep next_double dt k step_size target_pdf (seq 0 d) x g)
      as [[y|e] g1] eqn:Hsw; [|done].
    assert (Hy : P y) by by eapply checked_gibbs_sweep_invariant.
    eapply IH; [exact Hy| |exact Hrun].
    apply Forall_app. split; [done|]. by constructor.
Qed.

(** Inside the contract, with a quotient of numpy floats and a thinning
    step that is not zero, the call returns a chain. *)
Lemma checked_gibbs_accept_reject_Ok (x0 : array F) (thinning burnin N : Z)
    step_size target_pdf g :
  Checked.draws_ok step_size ->
  thinning <> 0%Z ->
  exists chain,
    (Checked.gibbs_accept_reject next_double x0 thinning burnin N step_size
       numpy_division target_pdf g).1 = Ok chain.
Proof.
  intros [Hh H01] Ht. unfold Checked.gibbs_accept_reject.
  destruct (checked_gibbs_loop_numpy (array_dtype x0) step_size target_pdf
              (length (array_values x0)) (Z.to_nat N) (array_values x0) g []
              Hh H01) as (recorded & -> & _).
  cbn [fst app].
  pose proof (slice_step_nonzero thinning recorded Ht) as Hs.
  destruct (slice_step thinning recorded) as [thinned|e]; [|done].
  by eexists.
Qed.

(** A step size whose range fails the checks stops the first update
    before anything is drawn. *)
Lemma checked_gibbs_loop_bad_range (dt : dtype) (k : quotient) step_size
    target_pdf (d n : nat) x g samples :
  ~ Checked.range_ok (fneg step_size) step_size ->
  Checked.gibbs_loop next_double dt k step_size target_pdf (S d) (S n) x g samples
  = (Raise (if fisfinite (fsub step_size (fneg step_size))
            then ValueError else OverflowError), g).
Proof.
  intros Hbad. cbn [Checked.gibbs_loop seq Checked.gibbs_sweep].
  unfold Checked.gibbs_update. by rewrite checked_uniform_Raise.
Qed.

End CheckedFacts.


(** ** The integrator, for any scalar type *)

Section IntegratorFacts.
Context {F : Type} `{Scalar F} `{Checks F}.
Context {RNG : Type} (next_double : RNG -> F * RNG).

Lemma map_zip_fsub (high low : list F) :
  map (fun p => fsub p.1 p.2) (zip high low) = zip_with fsub high low.
Proof.
  revert low. induction high as [|h high IH]; intros [|l low]; try done.
  simpl. by rewrite <- IH.
Qed.

(** The volume of bounds of equal length, whatever their dtypes. *)
Lemma box_volume_Ok (low high : array F) :
  length (array_values high) = length (array_values low) ->
  box_volume low high
  = Ok (match low, high with
        | IntArray l, IntArray h =>
            of_Z (np_prod_int64 (map (fun p => wrap_int64 (p.1 - p.2)) (zip h l)))
        | _, _ => np_prod (zip_with fsub (array_values high) (array_values low))
        end).
Proof.
  intros Hlen. unfold box_volume.
  destruct low as [l|l], high as [h|h]; cbn [array_values] in *;
    rewrite ?length_map in Hlen;
    rewrite broadcast_same by (rewrite ?length_map; done);
    cbn [mbind result_bind]; by rewrite ?map_zip_fsub.
Qed.

(** The integrator on bounds of equal length [d]: what is checked, in
    which order, and what is computed when the checks pass. *)
Lemma monte_carlo_integral_cases (integrand : list F -> F) (low high : array F)
    (N : Z) (g : RNG) :
  length (array_values high) = length (array_values low) ->
  let ranges := zip_with fsub (array_values high) (array_values low) in
  monte_carlo_integral next_double integrand (low, high) N g
  = if negb (forallb fisfinite ranges) then (Raise OverflowError, g)
    else if (N <? 0)%Z then (Raise ValueError, g)
    else
      let samples :=
        (draw_rows next_double (Z.to_nat N) (array_values low) (array_values high)
           g).1 in
      let vol :=
        match low, high with
        | IntArray l, IntArray h =>
            of_Z (np_prod_int64 (map (fun p => wrap_int64 (p.1 - p.2)) (zip h l)))
        | _, _ => np_prod ranges
        end in
      let values := map integrand samples in
      (Ok (fmul vol (np_mean values),
           fdiv (fmul vol (np_std values)) (fsqrt (of_Z N))),
       advance next_double (Z.to_nat N * length (array_values low)) g).
Proof.
  intros Hlen ranges. unfold monte_carlo_integral. cbn [fst snd].
  rewrite broadcast_same by done. rewrite map_zip_fsub. fold ranges.
  destruct (forallb fisfinite ranges); [|done]. cbn [negb].
  unfold ranges at 1. rewrite length_zip_with, Hlen, Nat.min_id, Nat.eqb_refl.
  cbn [negb]. destruct (N <? 0)%Z; [done|].
  rewrite fst_zip by lia. rewrite box_volume_Ok by done.
  pose proof (draw_rows_advance next_double (Z.to_nat N) (array_values low)
                (array_values high) g Hlen) as Hadv.
  destruct (draw_rows next_double (Z.to_nat N) (array_values low)
              (array_values high) g) as [samples g'].
  cbn [fst snd] in *. by rewrite Hadv.
Qed.

Lemma wrap_int64_range (z : Z) : (- 2 ^ 63 <= wrap_int64 z < 2 ^ 63)%Z.
Proof.
  unfold wrap_int64.
  pose proof (Z.mod_pos_bound (z + 2 ^ 63) (2 ^ 64) ltac:(lia)). lia.
Qed.

Lemma wrap_int64_congruent (z : Z) : exists q, (wrap_int64 z = z + q * 2 ^ 64)%Z.
Proof.
  exists (- ((z + 2 ^ 63) / 2 ^ 64))%Z. unfold wrap_int64.
  pose proof (Z.div_mod (z + 2 ^ 63) (2 ^ 64) ltac:(lia)). lia.
Qed.

Lemma wrap_int64_shift (z q : Z) : wrap_int64 (z + q * 2 ^ 64) = wrap_int64 z.
Proof. unfold wrap_int64. f_equal. rewrite <- Z.add_assoc, (Z.add_comm (q * _)),
  Z.add_assoc. apply Z_mod_plus_full. Qed.

Lemma wrap_int64_id (z : Z) : (- 2 ^ 63 <= z < 2 ^ 63)%Z -> wrap_int64 z = z.
Proof. intros Hz. unfold wrap_int64. rewrite Z.mod_small by lia. lia. Qed.

Lemma wrap_int64_mul (a b : Z) :
  wrap_int64 (wrap_int64 a * wrap_int64 b) = wrap_int64 (a * b).
Proof.
  destruct (wrap_int64_congruent a) as [qa ->].
  destruct (wrap_int64_congruent b) as [qb ->].
  replace ((a + qa * 2 ^ 64) * (b + qb * 2 ^ 64))%Z
    with (a * b + (a * qb + qa * b + qa * qb * 2 ^ 64) * 2 ^ 64)%Z by ring.
  apply wrap_int64_shift.
Qed.

(** The [int64] product of wrapped differences is the exact product,
    wrapped once. *)
Lemma np_prod_int64_wrap (diffs : list Z) :
  np_prod_int64 (map wrap_int64 diffs) = wrap_int64 (fold_right Z.mul 1%Z diffs).
Proof.
  unfold np_prod_int64.
  assert (Hgen : forall acc,
            fold_left (fun a v => wrap_int64 (a * v)) (map wrap_int64 diffs)
              (wrap_int64 acc)
            = wrap_int64 (acc * fold_right Z.mul 1 diffs)%Z).
  { induction diffs as [|v diffs IH]; intros acc.
    - simpl. by rewrite Z.mul_1_r.
    - cbn [map fold_left fold_right]. rewrite wrap_int64_mul, IH.
      by rewrite Z.mul_assoc. }
  specialize (Hgen 1%Z). rewrite Z.mul_1_l in Hgen.
  by rewrite <- Hgen, (wrap_int64_id 1) by lia.
Qed.

End IntegratorFacts.

(** ** The estimators over the reals *)

Section RealEstimatorFacts.
Local Open Scope R_scope.

Lemma Rltb_true (a b : R) : Rltb a b = true <-> a < b.
Proof. unfold Rltb. destruct (Rlt_dec a b); split; try done. Qed.

Lemma Rltb_false (a b : R) : Rltb a b = false <-> ~ a < b.
Proof. unfold Rltb. destruct (Rlt_dec a b); split; try done. Qed.

(** Every integer a double can hold is below the limit. *)
Lemma float_limit_gt (z : Z) : (z < 2 ^ 1024)%Z -> IZR z < float_limit.
Proof. apply IZR_lt. Qed.

Lemma isfinite_R (x : R) : Rabs x < float_limit -> fisfinite x = true.
Proof. intros Hx. by apply Rltb_true. Qed.

Lemma population_std_singleton (v : R) : population_std [v] = 0.
Proof.
  unfold population_std, sum_sq_dev, arithmetic_mean. simpl.
  replace ((v - (v + 0) / 1) * ((v - (v + 0) / 1) * 1) + 0) with 0 by field.
  unfold Rdiv. rewrite Rmult_0_l. apply sqrt_0.
Qed.

Context {RNG : Type} (next_double : RNG -> R * RNG).

(** Each drawn row lies in the box, coordinate by coordinate. *)
Lemma draw_row_in_box (low high : list R) (g : RNG) :
  (forall g', 0 <= (next_double g').1 < 1) ->
  Forall2 Rlt low high ->
  forall (j : nat) (l h p : R),
    low !! j = Some l -> high !! j = Some h ->
    (draw_row next_double low high g).1 !! j = Some p ->
    l <= p < h.
Proof.
  intros Hsrc Hbox. revert g.
  induction Hbox as [|l0 h0 low high Hlh Hbox IH]; intros g j l h p Hl Hh Hp.
  - done.
  - simpl in Hp. pose proof (Hsrc g) as Hu.
    destruct (next_double g) as [u g1]. simpl in Hu.
    destruct (draw_row next_double low high g1) as [row g2] eqn:Hrow.
    destruct j as [|j]; simpl in *.
    + injection Hl as <-. injection Hh as <-. injection Hp as <-. nra.
    + apply (IH g1 j l h p Hl Hh). by rewrite Hrow.
Qed.

Lemma forallb_isfinite_R (l : list R) :
  Forall (fun r => Rabs r < float_limit) l -> forallb fisfinite l = true.
Proof.
  induction 1 as [|r l Hr _ IH]; [done|].
  cbn [forallb]. by rewrite (isfinite_R r Hr), IH.
Qed.

(** A point selected by doubles of the unit interval lies in the box. *)
Lemma box_point_in_box (low high : list R) (u : nat -> R) :
  Forall2 Rlt low high ->
  (forall j, 0 <= u j < 1) ->
  Forall2 Rle low (box_point low high u) /\ Forall2 Rlt (box_point low high u) high.
Proof.
  intros Hbox. revert u.
  induction Hbox as [|l h low high Hlh Hbox IH]; intros u Hu.
  - split; constructor.
  - unfold box_point. cbn [zip zip_with imap fst snd].
    change (imap _ (zip low high)) with (box_point low high (fun j => u (S j))).
    destruct (IH (fun j => u (S j)) ltac:(intros j; apply Hu)) as [IHl IHh].
    pose proof (Hu 0%nat) as Hu0.
    split; constructor; try done; nra.
Qed.

Lemma Rprod_IZR (h l : list Z) :
  IZR (fold_right Z.mul 1%Z (zip_with Z.sub h l))
  = Rprod (zip_with Rminus (map IZR h) (map IZR l)).
Proof.
  revert l. induction h as [|a h IH]; intros [|b l]; try done.
  cbn [zip_with map fold_right Rprod]. rewrite mult_IZR, minus_IZR.
  by rewrite IH.
Qed.

(** The integrator over the reals, on bounds of equal length whose
    ranges are finite and whose volume fits. *)
Lemma monte_carlo_integral_R (integrand : list R -> R) (low high : array R)
    (N : Z) (g : RNG) :
  let lo := array_values low in
  let hi := array_values high in
  length hi = length lo ->
  Forall (fun r => Rabs r < float_limit) (zip_with Rminus hi lo) ->
  volume_fits low high ->
  (0 <= N)%Z ->
  let values :=
    map integrand
      (box_points (Z.to_nat N) lo hi (fun n => nth_double next_double n g)) in
  monte_carlo_integral next_double integrand (low, high) N g
  = (Ok (volume lo hi * arithmetic_mean values,
         volume lo hi * population_std values / sqrt (IZR N)),
     advance next_double (Z.to_nat N * length lo) g).
Proof.
  intros lo hi Hlen Hfin Hfits HN values.
  rewrite monte_carlo_integral_cases by done. cbn zeta. fold lo hi.
  change (zip_with fsub hi lo) with (zip_with Rminus hi lo).
  rewrite forallb_isfinite_R by done. cbn [negb].
  destruct (Z.ltb_spec N 0); [lia|].
  rewrite (draw_rows_coordinates next_double (Z.to_nat N) lo hi g Hlen).
  assert (Hvol : match low, high with
                 | IntArray l, IntArray h =>
                     of_Z (np_prod_int64
                             (map (fun p => wrap_int64 (p.1 - p.2)) (zip h l)))
                 | _, _ => np_prod (zip_with Rminus hi lo)
                 end = volume lo hi).
  { unfold volume. destruct low as [l|l], high as [h|h];
      try apply np_prod_R.
    cbn [volume_fits] in Hfits. unfold lo, hi. cbn [array_values].
    change (@of_Z R R_scalar) with IZR. rewrite <- Rprod_IZR. f_equal.
    replace (map (fun p => wrap_int64 (p.1 - p.2)) (zip h l))
      with (map wrap_int64 (zip_with Z.sub h l)).
    - rewrite np_prod_int64_wrap. by apply wrap_int64_id.
    - clear. revert l. induction h as [|a h IH]; intros [|b l]; try done.
      simpl. by rewrite IH. }
  rewrite Hvol, np_mean_R, np_std_R. reflexivity.
Qed.

End RealEstimatorFacts.

(** ** Division by zero and comparisons, on binary64 floats *)

Section FloatDivision.
Import PrimFloat.
Local Open Scope float_scope.

Lemma is_zero_SF (z : float) :
  is_zero z = true -> exists s, FloatOps.Prim2SF z = SpecFloat.S754_zero s.
Proof.
  unfold is_zero. rewrite FloatAxioms.eqb_spec.
  change (FloatOps.Prim2SF zero) with (SpecFloat.S754_zero false).
  destruct (FloatOps.Prim2SF z) as [s|s| |s m e]; simpl; try discriminate.
  - intros _. by exists s.
  - by destruct s.
  - by destruct s.
Qed.

Lemma is_finite_SF (q : float) :
  is_finite q
  = match FloatOps.Prim2SF q with
    | SpecFloat.S754_nan | SpecFloat.S754_infinity _ => false
    | _ => true
    end.
Proof.
  unfold is_finite, is_nan, is_infinity.
  rewrite !FloatAxioms.eqb_spec, FloatAxioms.abs_spec.
  change (FloatOps.Prim2SF infinity) with (SpecFloat.S754_infinity false).
  destruct (FloatOps.Prim2SF q) as [s|s| |s m e]; simpl; try done.
  - by destruct s.
  - unfold SpecFloat.SFeqb. simpl.
    rewrite Z.compare_refl, Pos.compare_refl. simpl. by destruct s.
Qed.

(** A quotient by zero is an infinity or a NaN, whatever the numerator. *)
Lemma div_zero_not_finite (p z : float) :
  is_zero z = true -> is_finite (p / z) = false.
Proof.
  intros [s Hz]%is_zero_SF.
  rewrite is_finite_SF, FloatAxioms.div_spec, Hz.
  unfold FloatAxioms.SF64div.
  by destruct (FloatOps.Prim2SF p) as [sp|sp| |sp m e].
Qed.

(** Nothing is below a NaN. *)
Lemma ltb_nan_false (u r : float) : is_nan r = true -> (u <? r) = false.
Proof.
  unfold is_nan. rewrite FloatAxioms.eqb_spec, FloatAxioms.ltb_spec.
  destruct (FloatOps.Prim2SF r) as [s|s| |s m e]; simpl.
  - discriminate.
  - by destruct s.
  - intros _. unfold SpecFloat.SFltb. by destruct (FloatOps.Prim2SF u).
  - unfold SpecFloat.SFeqb. simpl.
    rewrite Z.compare_refl, Pos.compare_refl. by destruct s.
Qed.

(** Every finite float is below plus infinity. *)
Lemma ltb_infinity_true (u : float) :
  is_finite u = true -> (u <? infinity) = true.
Proof.
  rewrite is_finite_SF, FloatAxioms.ltb_spec.
  change (FloatOps.Prim2SF infinity) with (SpecFloat.S754_infinity false).
  by destruct (FloatOps.Prim2SF u) as [s|s| |s m e].
Qed.

End FloatDivision.

(** * Claims about the blocking analysis *)

(** C1.  For a series of length [N] and a block length [L = 2^k] with
    [N // L >= min_blocks], the analysis returns, its entry [k] has block
    length [L], variance-of-mean estimate [s2 / n_blocks] and uncertainty
    [s2 / n_blocks * sqrt (2 / (n_blocks - 1))], where [n_blocks = N // L]
    and [s2] is the sample variance (denominator [n_blocks - 1]) of the
    means of the first [n_blocks] contiguous blocks of length [L]; the
    elements from index [n_blocks * L] on are not read. *)
Theorem blocking_estimate_at_scale (series : list R) (min_blocks : Z) (k : nat) :
  let N := Z.of_nat (length series) in
  let L := (2 ^ Z.of_nat k)%Z in
  let n_blocks := (N / L)%Z in
  let s2 := unbiased_variance (block_means series (Z.to_nat L) (Z.to_nat n_blocks)) in
  (1 <= min_blocks)%Z ->
  (min_blocks <= n_blocks)%Z ->
  exists bin_sizes var_mean err_var,
    blocking_variance series min_blocks = Ok (bin_sizes, var_mean, err_var)
    /\ bin_sizes !! k = Some L
    /\ var_mean !! k = Some (s2 / IZR n_blocks)%R
    /\ err_var !! k = Some (s2 / IZR n_blocks * sqrt (2 / (IZR n_blocks - 1)))%R.
Proof.
  intros N L n_blocks s2 Hm Hn.
  assert (HL : (0 < L)%Z) by (apply Z.pow_pos_nonneg; lia).
  assert (HN : (min_blocks <= N)%Z).
  { pose proof (Z.mul_div_le N L HL). unfold n_blocks in Hn. nia. }
  assert (Hk : (Z.of_nat k < Z.log2 (N / min_blocks) + 1)%Z).
  { apply Z.lt_succ_r, enough_blocks_iff; [lia|done]. }
  eexists _, _, _. split; [apply blocking_variance_Ok; lia|].
  fold N. rewrite !list_lookup_fmap, pow2_arange_lookup by done.
  cbn [fmap option_fmap option_map].
  fold L. rewrite blocking_entry_R by (fold N; fold n_blocks; lia).
  done.
Qed.

Section BlockingClaims.
Context {F : Type} `{Scalar F}.

(** C2 does not hold of the code.  A series shorter than [min_blocks]
    makes [N // min_blocks] zero, and [int(np.log2(0))] raises
    [OverflowError] before the loop and its guard are reached: no curve,
    empty or not, is returned. *)
Theorem blocking_short_series_raises (series : list F) (min_blocks : Z) :
  (Z.of_nat (length series) < min_blocks)%Z ->
  blocking_variance series min_blocks = Raise OverflowError.
Proof.
  intros Hshort. unfold blocking_variance, floordiv.
  destruct (Z.eqb_spec min_blocks 0); [lia|]. simpl.
  by rewrite Z.div_small by lia.
Qed.

(** C4.  Whenever the analysis returns, its three sequences have the same
    length; the block lengths start at [1], entry [k] is [2^k] (so they
    increase strictly) and leaves at least [min_blocks] complete blocks; the next power of two after the last entry would leave fewer
    than [min_blocks]; and for [N = 16], [min_blocks = 4] the block
    lengths are [1; 2; 4]. *)
Theorem blocking_curve_shape (series : list F) (min_blocks : Z)
    (bin_sizes : list Z) (var_mean err_var : list F) :
  blocking_variance series min_blocks = Ok (bin_sizes, var_mean, err_var) ->
  let N := Z.of_nat (length series) in
  length bin_sizes = length var_mean
  /\ length var_mean = length err_var
  /\ bin_sizes !! 0%nat = Some 1%Z
  /\ (forall (k : nat) (L : Z), bin_sizes !! k = Some L ->
        L = (2 ^ Z.of_nat k)%Z /\ (min_blocks <= N / L)%Z)
  /\ (forall (i j : nat) (Li Lj : Z), (i < j)%nat ->
        bin_sizes !! i = Some Li -> bin_sizes !! j = Some Lj -> (Li < Lj)%Z)
  /\ (N / 2 ^ Z.of_nat (length bin_sizes) < min_blocks)%Z
  /\ (N = 16%Z -> min_blocks = 4%Z -> bin_sizes = [1; 2; 4]%Z).
Proof.
  intros Hret N.
  assert (Hm : (1 <= min_blocks <= N)%Z).
  { destruct (decide (1 <= min_blocks <= N)%Z) as [|Hno]; [done|].
    apply (blocking_variance_Raise series) in Hno. by rewrite Hret in Hno. }
  rewrite blocking_variance_Ok in Hret by done. fold N in Hret.
  set (max_power := Z.log2 (N / min_blocks)) in *.
  assert (Hmp : (0 <= max_power)%Z) by apply Z.log2_nonneg.
  injection Hret as <- <- <-.
  assert (Hpow : forall (k : nat) (L : Z),
            pow2_arange (max_power + 1) !! k = Some L ->
            (Z.of_nat k <= max_power)%Z /\ L = (2 ^ Z.of_nat k)%Z).
  { intros k L Hk.
    assert (Hlt : (k < Z.to_nat (max_power + 1))%nat).
    { rewrite <- pow2_arange_length. by eapply lookup_lt_Some. }
    rewrite pow2_arange_lookup in Hk by lia. injection Hk as <-. lia. }
  split; [by rewrite length_map|].
  split; [by rewrite !length_map|].
  split; [by rewrite (pow2_arange_lookup _ 0) by lia|].
  split.
  { intros k L [Hk ->]%Hpow. split; [done|].
    apply enough_blocks_iff; [done|]. by fold max_power. }
  split.
  { intros i j Li Lj Hij [_ ->]%Hpow [_ ->]%Hpow.
    apply Z.pow_lt_mono_r; lia. }
  split.
  { rewrite pow2_arange_length.
    destruct (Z.lt_ge_cases (N / 2 ^ Z.of_nat (Z.to_nat (max_power + 1))) min_blocks)
      as [|Hge]; [done|].
    apply enough_blocks_iff in Hge; [|done]. fold max_power in Hge. lia. }
  intros HN ->. unfold max_power. by rewrite HN.
Qed.

End BlockingClaims.

(** * Claims about the Gibbs accept-reject sampler *)

Section GibbsClaims.
Context {F : Type} `{Scalar F}.
Context {RNG : Type} (next_double : RNG -> F * RNG).
Implicit Types (x : list F) (g : RNG) (target_pdf : list F -> F).

(** C3.  For [thinning >= 1] and [burnin >= 0] the sampler returns the
    recorded chain thinned first (every [thinning]-th recorded state, by
    the stride slice) and cut second (the first [burnin] elements of the
    thinned sequence dropped): element [i] of the result is the state
    recorded by sweep [(burnin + i) * thinning], so that [burnin] counts
    thinned elements and not sweeps. *)
Theorem gibbs_thinning_before_burn_in x0 (thinning burnin N : Z) step_size target_pdf g :
  (1 <= thinning)%Z -> (0 <= burnin)%Z ->
  let raw := recorded_chain next_double x0 N step_size target_pdf g in
  let thinned := every_nth (Z.to_nat thinning) raw in
  slice_step thinning raw = Ok thinned
  /\ (gibbs_accept_reject next_double x0 thinning burnin N step_size target_pdf g).1
     = Ok (drop (Z.to_nat burnin) thinned)
  /\ forall i : nat,
       drop (Z.to_nat burnin) thinned !! i
       = raw !! ((Z.to_nat burnin + i) * Z.to_nat thinning)%nat.
Proof.
  intros Ht Hb raw thinned.
  assert (Hslice : slice_step thinning raw = Ok thinned) by by apply slice_step_pos.
  split; [done|]. split.
  - rewrite gibbs_accept_reject_slices. fold raw. rewrite Hslice. simpl.
    by rewrite slice_from_nonneg.
  - intros i. rewrite lookup_drop. unfold thinned.
    by rewrite every_nth_lookup by lia.
Qed.

(** C7, as the code has it.  When the burn-in reaches the length of the
    thinned chain, the sampler raises nothing and returns the empty
    chain. *)
Theorem gibbs_excess_burn_in_returns_empty x0 (thinning burnin N : Z)
    step_size target_pdf g thinned :
  slice_step thinning (recorded_chain next_double x0 N step_size target_pdf g)
    = Ok thinned ->
  (Z.of_nat (length thinned) <= burnin)%Z ->
  (gibbs_accept_reject next_double x0 thinning burnin N step_size target_pdf g).1
  = Ok [].
Proof.
  intros Hslice Hb. rewrite gibbs_accept_reject_slices, Hslice. simpl.
  rewrite slice_from_nonneg by lia. by rewrite drop_ge by lia.
Qed.

(** C10.  For [N >= 1], [thinning >= 1] and [burnin >= 0]: the stride
    slice keeps the states recorded at sweep indices [0], [thinning],
    [2 * thinning], ..., the state after the first sweep among them; it
    keeps [ceil (N / thinning)] states; the returned chain is what is left
    of them after the first [burnin], it has
    [max 0 (ceil (N / thinning) - burnin)] states, and it is empty when
    [burnin >= ceil (N / thinning)]. *)
Theorem gibbs_returned_chain_length x0 (thinning burnin N : Z)
    step_size target_pdf g :
  (1 <= N)%Z -> (1 <= thinning)%Z -> (0 <= burnin)%Z ->
  let raw := recorded_chain next_double x0 N step_size target_pdf g in
  let kept := ceil_div N thinning in
  exists thinned chain,
    slice_step thinning raw = Ok thinned
    /\ (forall i : nat, thinned !! i = raw !! (i * Z.to_nat thinning)%nat)
    /\ thinned !! 0%nat
       = Some (after_sweeps next_double step_size target_pdf (length x0) 1 x0 g).1
    /\ Z.of_nat (length thinned) = kept
    /\ (gibbs_accept_reject next_double x0 thinning burnin N step_size target_pdf g).1
       = Ok chain
    /\ chain = drop (Z.to_nat burnin) thinned
    /\ Z.of_nat (length chain) = Z.max 0 (kept - burnin)
    /\ ((kept <= burnin)%Z -> chain = []).
Proof.
  intros HN Ht Hb raw kept.
  destruct (slice_step_pos_lookup thinning raw Ht) as (thinned & Hslice & Hlen & Hidx).
  assert (Hraw : length raw = Z.to_nat N) by apply recorded_chain_length.
  rewrite Hraw, Z2Nat.id in Hlen by lia. fold kept in Hlen.
  pose proof (ceil_div_spec N thinning ltac:(lia)) as Hc. fold kept in Hc.
  assert (Hkept : (1 <= kept)%Z) by nia.
  exists thinned, (drop (Z.to_nat burnin) thinned).
  split; [done|]. split; [done|]. split.
  { rewrite Hidx. apply recorded_chain_lookup. lia. }
  split; [lia|]. split.
  { rewrite gibbs_accept_reject_slices. fold raw. rewrite Hslice. simpl.
    by rewrite slice_from_nonneg. }
  split; [done|]. split.
  { rewrite length_drop. lia. }
  intros Hle. apply drop_ge. lia.
Qed.

End GibbsClaims.

(** * Claims about the estimators, over the reals *)

Section RealClaims.
Local Open Scope R_scope.
Context {RNG : Type} (next_double : RNG -> R * RNG).

(** C9.  On a non-empty chain where the target density does not vanish,
    the estimate is the sum of the weights [f x / target_pdf x] over the
    chain divided by the number of samples. *)
Theorem importance_estimate_is_mean_weight (f target_pdf : list R -> R)
    (m_chain : list (list R)) :
  m_chain <> [] ->
  Forall (fun x => target_pdf x <> 0) m_chain ->
  importance_integration f target_pdf m_chain
  = Rsum (map (fun x => f x / target_pdf x) m_chain) / INR (length m_chain).
Proof.
  intros _ _. unfold importance_integration.
  rewrite weights_elementwise, np_mean_R. unfold arithmetic_mean.
  by rewrite length_map.
Qed.

(** C8, as the code has it.  For bounds with [low[i] < high[i]] and a
    finite range [high[i] - low[i]] throughout (and, when both are integer
    arrays, a volume that fits [int64]), and [N >= 1], over the reals:
    the integrator returns the volume times the mean of the integrand
    values, together with the volume times their population standard
    deviation over [sqrt N], the values being those of the integrand at
    the [N] points whose coordinate [j] is
    [low[j] + (high[j] - low[j]) * u] for the successive doubles [u] of
    the random source; it has then drawn [N * d] doubles.  The points lie
    in the box when the doubles lie in [[0, 1)].  With [N = 1] the second
    component is [0]. *)
Theorem monte_carlo_estimate_and_error (integrand : list R -> R)
    (low high : array R) (N : Z) (g : RNG) :
  let lo := array_values low in
  let hi := array_values high in
  Forall2 Rlt lo hi ->
  Forall2 (fun l h => h - l < float_limit) lo hi ->
  volume_fits low high ->
  (1 <= N)%Z ->
  let points :=
    box_points (Z.to_nat N) lo hi (fun n => nth_double next_double n g) in
  let values := map integrand points in
  let run := monte_carlo_integral next_double integrand (low, high) N g in
  run = (Ok (volume lo hi * arithmetic_mean values,
             volume lo hi * population_std values / sqrt (IZR N)),
         advance next_double (Z.to_nat N * length lo) g)
  /\ Z.of_nat (length points) = N
  /\ (unit_source next_double ->
      Forall (fun p => Forall2 Rle lo p /\ Forall2 Rlt p hi) points)
  /\ (N = 1%Z -> exists estimate, run.1 = Ok (estimate, 0)).
Proof.
  intros lo hi Hbox Hfin Hfits HN points values run.
  assert (Hlen : length hi = length lo).
  { symmetry. by eapply Forall2_length. }
  assert (Hranges : Forall (fun r => Rabs r < float_limit) (zip_with Rminus hi lo)).
  { clear -Hbox Hfin. induction Hbox as [|l h lo hi Hlh Hbox IH]; [constructor|].
    apply Forall2_cons in Hfin as [Hr Hfin]. cbn [zip_with].
    constructor; [|by apply IH]. rewrite Rabs_pos_eq by lra. done. }
  assert (Hrun : run = (Ok (volume lo hi * arithmetic_mean values,
                            volume lo hi * population_std values / sqrt (IZR N)),
                        advance next_double (Z.to_nat N * length lo) g)).
  { unfold run. rewrite monte_carlo_integral_R by (done || lia). done. }
  assert (Hpts : length points = Z.to_nat N).
  { unfold points, box_points. by rewrite length_map, length_seq. }
  split; [done|]. split; [lia|]. split.
  { intros Hsrc. unfold points, box_points. apply Forall_fmap, Forall_true.
    intros i. unfold compose. apply box_point_in_box; [done|].
    intros j. apply Hsrc. }
  intros ->. eexists. rewrite Hrun. cbn [fst]. do 2 f_equal.
  assert (Hone : exists v, values = [v]).
  { unfold values. destruct points as [|p [|q ps]]; simpl in Hpts; try done.
    by eexists. }
  destruct Hone as [v ->]. rewrite population_std_singleton.
  unfold Rdiv. by rewrite Rmult_0_r, Rmult_0_l.
Qed.

End RealClaims.

(** * Claims settled on binary64 floats *)

Section FloatClaims.
Context {RNG : Type} (next_double : RNG -> PrimFloat.float * RNG).
Implicit Types (x c : list PrimFloat.float) (g : RNG).
Implicit Types (target_pdf f : list PrimFloat.float -> PrimFloat.float).

(** C6, as the code has it.  Where the density is zero and the quotient
    is taken on numpy floats, nothing is signalled.  In the sampler (with
    a step size that passes the checks of the draw) the quotient by the
    zero density of the current state is an infinity or a NaN; it is
    compared with [u] like any other ratio, the update returning the
    proposal exactly when [u < acc_ratio], never when the ratio is a NaN
    and always, for a finite [u], when it is plus infinity.  Only a
    density that returns Python floats makes the quotient raise
    [ZeroDivisionError], after the first of the two draws.  In the
    estimator the weight of a sample of zero density is an infinity or a
    NaN, and the value returned is the mean of the weights, this one
    included. *)
Theorem zero_density_goes_unsignalled (step_size : PrimFloat.float)
    target_pdf f x (j : nat) g (m_chain : list (list PrimFloat.float))
    (i : nat) c :
  Checked.range_ok (fneg step_size) step_size ->
  PrimFloat.is_zero (target_pdf x) = true ->
  m_chain !! i = Some c ->
  PrimFloat.is_zero (target_pdf c) = true ->
  let g1 := (next_double g).2 in
  let g2 := (next_double g1).2 in
  let delta :=
    PrimFloat.add (PrimFloat.opp step_size)
      (PrimFloat.mul (PrimFloat.sub step_size (PrimFloat.opp step_size))
         (next_double g).1) in
  let u :=
    PrimFloat.add (float_of_Z 0)
      (PrimFloat.mul (PrimFloat.sub (float_of_Z 1) (float_of_Z 0))
         (next_double g1).1) in
  let x_prop := <[j := PrimFloat.add (getitem x j) delta]> x in
  let acc_ratio := PrimFloat.div (target_pdf x_prop) (target_pdf x) in
  let step k :=
    Checked.gibbs_update next_double float64 k step_size target_pdf x j g in
  let weights := map (fun y => PrimFloat.div (f y) (target_pdf y)) m_chain in
  PrimFloat.is_finite acc_ratio = false
  /\ step numpy_division
     = (Ok (if PrimFloat.ltb u acc_ratio then x_prop else x), g2)
  /\ (PrimFloat.is_nan acc_ratio = true -> step numpy_division = (Ok x, g2))
  /\ (acc_ratio = PrimFloat.infinity -> PrimFloat.is_finite u = true ->
      step numpy_division = (Ok x_prop, g2))
  /\ step python_division = (Raise ZeroDivisionError, g1)
  /\ (exists w, weights !! i = Some w /\ PrimFloat.is_finite w = false)
  /\ importance_integration f target_pdf m_chain = np_mean weights.
Proof.
  intros Hh Hzero Hc Hczero g1 g2 delta u x_prop acc_ratio step weights.
  assert (H01 : Checked.range_ok (float_of_Z 0) (float_of_Z 1)) by done.
  assert (Hstep : step numpy_division
                  = (Ok (if PrimFloat.ltb u acc_ratio then x_prop else x), g2)).
  { unfold step. rewrite checked_gibbs_update_in_contract by done.
    rewrite gibbs_update_cases. cbn [fst snd]. unfold uniform01, uniform.
    fold g1. destruct (next_double g) as [u0 g1'] eqn:Hg.
    cbn [fst snd] in *. subst g1. cbn [fst snd].
    destruct (next_double g1') as [u1 g2'] eqn:Hg1. by cbn [fst snd] in *. }
  split; [by apply div_zero_not_finite|].
  split; [done|].
  split; [intros Hnan; by rewrite Hstep, ltb_nan_false|].
  split; [intros Hinf Hu; by rewrite Hstep, Hinf, ltb_infinity_true|].
  split; [by apply checked_gibbs_update_python_zero|].
  split.
  { exists (PrimFloat.div (f c) (target_pdf c)). split.
    - unfold weights. by rewrite list_lookup_fmap, Hc.
    - by apply div_zero_not_finite. }
  unfold importance_integration. by rewrite weights_elementwise.
Qed.

End FloatClaims.

Section IntegerState.
Import PrimFloat.
Local Open Scope float_scope.

(** C5 fails on the code for an integer initial state.  [np.array(x0)]
    of a list of Python integers is an [int64] array, and the assignment
    [x_prop[j] = x[j] + delta] stores the sum truncated towards zero.
    Started at [[0, 0]] with step size [0.5], the first draw is
    [delta = 0.25]: the proposal of the claim is [[0.25, 0]], the array
    the code builds is [[0, 0]].  It is accepted (the density is
    constant), as is every later one, and the recorded chain never leaves
    the origin; the same call on the float state [[0.0, 0.0]] moves. *)
Theorem gibbs_integer_state_truncates :
  let delta := (uniform cycle_doubles (-0.5) 0.5 0%nat).1 in
  let call x0 :=
    Checked.gibbs_accept_reject cycle_doubles x0 1 0 3 0.5 numpy_division
      unit_density 0%nat in
  delta = 0.25
  /\ <[0%nat := getitem [0; 0] 0 + delta]> [0; 0] = [0.25; 0]
  /\ Checked.setitem int64 [0; 0] 0 (getitem [0; 0] 0 + delta) = [0; 0]
  /\ Checked.gibbs_update cycle_doubles int64 numpy_division 0.5 unit_density
       [0; 0] 0 0%nat = (Ok [0; 0], 2%nat)
  /\ call (IntArray [0; 0]%Z) = (Ok [[0; 0]; [0; 0]; [0; 0]], 12%nat)
  /\ call (FloatArray [0; 0]) = (Ok [[0.25; 0]; [0.5; 0]; [0.75; 0]], 12%nat).
Proof. repeat split; reflexivity. Qed.

End IntegerState.

(** * The statements above at fixed inputs *)

Section Runs.
Import PrimFloat.
Local Open Scope float_scope.

Lemma blocking_short_series_raises_witness :
  blocking_variance [1.5; 2.5; 3.5] 4 = Raise OverflowError.
Proof.
  apply (blocking_short_series_raises [1.5; 2.5; 3.5] 4). simpl. lia.
Defined.

Lemma blocking_curve_shape_witness :
  exists var_mean err_var,
    blocking_variance (map float_of_Z (seqZ 1 16)) 4
      = Ok ([1; 2; 4]%Z, var_mean, err_var)
    /\ length var_mean = 3%nat /\ length err_var = 3%nat
    /\ (16 / 2 ^ 3 < 4)%Z.
Proof.
  eexists _, _. split; [reflexivity|].
  match goal with
  | |- length ?v = _ /\ length ?e = _ /\ _ =>
      destruct (blocking_curve_shape (map float_of_Z (seqZ 1 16)) 4
                  [1; 2; 4]%Z v e eq_refl)
        as (Hbv & Hve & _ & _ & _ & Hnext & _)
  end.
  split; [by rewrite <- Hbv|]. split; [by rewrite <- Hve, <- Hbv|].
  exact Hnext.
Defined.

Lemma gibbs_thinning_before_burn_in_witness :
  (gibbs_accept_reject cycle_doubles [0; 0] 2 1 7 1 unit_density 0%nat).1
  = Ok (drop 1 (every_nth 2
                  (recorded_chain cycle_doubles [0; 0] 7 1 unit_density 0%nat))).
Proof.
  apply (gibbs_thinning_before_burn_in cycle_doubles [0; 0] 2 1 7 1
           unit_density 0%nat); lia.
Defined.

Lemma gibbs_excess_burn_in_returns_empty_witness :
  (gibbs_accept_reject cycle_doubles [0; 0] 1 5 3 1 unit_density 0%nat).1 = Ok [].
Proof.
  apply (gibbs_excess_burn_in_returns_empty cycle_doubles [0; 0] 1 5 3 1
           unit_density 0%nat [[0.5; 0]; [1; 0]; [1.5; 0]]).
  - reflexivity.
  - simpl. lia.
Defined.

(** C7 fails on the code: a burn-in of 5 against a thinned chain of 3
    states raises nothing; the empty chain comes back as an ordinary
    value. *)
Lemma gibbs_excess_burn_in_counterexample :
  let raw := recorded_chain cycle_doubles [0; 0] 3 1 unit_density 0%nat in
  let run := (gibbs_accept_reject cycle_doubles [0; 0] 1 5 3 1 unit_density 0%nat).1 in
  (exists thinned, slice_step 1 raw = Ok thinned /\ (Z.of_nat (length thinned) <= 5)%Z)
  /\ run = Ok []
  /\ raises run = false.
Proof.
  split; [|split; reflexivity].
  exists [[0.5; 0]; [1; 0]; [1.5; 0]]. split; [reflexivity|simpl; lia].
Qed.

Lemma gibbs_returned_chain_length_witness :
  exists chain,
    (gibbs_accept_reject cycle_doubles [0; 0] 2 1 7 1 unit_density 0%nat).1 = Ok chain
    /\ Z.of_nat (length chain) = Z.max 0 (ceil_div 7 2 - 1).
Proof.
  destruct (gibbs_returned_chain_length cycle_doubles [0; 0] 2 1 7 1
              unit_density 0%nat ltac:(lia) ltac:(lia) ltac:(lia))
    as (thinned & chain & _ & _ & _ & _ & Hrun & _ & Hlen & _).
  exists chain. split; [exact Hrun|exact Hlen].
Defined.

Lemma zero_density_goes_unsignalled_witness :
  is_finite (halfline_density [0.25] / halfline_density [-0.25]) = false
  /\ Checked.gibbs_update cycle_doubles float64 numpy_division 1 halfline_density
       [-0.25] 0 0%nat = (Ok [0.25], 2%nat)
  /\ Checked.gibbs_update cycle_doubles float64 python_division 1 halfline_density
       [-0.25] 0 0%nat = (Raise ZeroDivisionError, 1%nat)
  /\ importance_integration unit_density halfline_density [[-1]; [1]]
     = np_mean [1 / 0; 1 / 1].
Proof.
  destruct (zero_density_goes_unsignalled cycle_doubles 1
              halfline_density unit_density [-0.25] 0 0%nat
              [[-1]; [1]] 0 [-1]
              ltac:(split; reflexivity) ltac:(reflexivity) ltac:(reflexivity)
              ltac:(reflexivity))
    as (Hratio & Hnumpy & _ & _ & Hpython & _ & Hmean).
  split; [exact Hratio|]. split; [exact Hnumpy|].
  split; [exact Hpython|exact Hmean].
Defined.

(** C6 fails on the code.  The density is a function that returns numpy
    floats.  The sampler starts at [-0.25], where the density is zero;
    the first proposal is [0.25], the ratio [1 / 0] is plus infinity, the
    proposal is accepted and the run returns its chain.  Started at [-2]
    every proposal has density zero as well, the ratio [0 / 0] is a NaN,
    nothing is ever accepted and the run returns a chain that never
    moved.  The estimator, given a sample of zero density, returns plus
    infinity.  None of them raises. *)
Lemma zero_density_counterexample :
  let run :=
    (Checked.gibbs_accept_reject cycle_doubles (FloatArray [-0.25]) 1 0 2 1
       numpy_division halfline_density 0%nat).1 in
  let stuck :=
    (Checked.gibbs_accept_reject cycle_doubles (FloatArray [-2]) 1 0 2 1
       numpy_division halfline_density 0%nat).1 in
  halfline_density [-0.25] = 0
  /\ halfline_density [0.25] / halfline_density [-0.25] = infinity
  /\ run = Ok [[0.25]; [0.25]]
  /\ raises run = false
  /\ halfline_density [-2] = 0
  /\ is_nan (halfline_density [-1.5] / halfline_density [-2]) = true
  /\ stuck = Ok [[-2]; [-2]]
  /\ raises stuck = false
  /\ halfline_density [-1] = 0
  /\ importance_integration unit_density halfline_density [[-1]; [1]] = infinity.
Proof. repeat split; reflexivity. Qed.

(** C8 fails on the code.  With the float bounds [[-2^600, -2^600]] and
    [[2^600, 2^600]] each range is finite and the volume overflows to
    plus infinity; for [N = 1] the deviation of the single value is [0]
    and the standard error [inf * 0] is a NaN, not [0].  With the
    [int64] bounds [np.full(9, -100)] and [np.full(9, 100)] the product
    [200^9] wraps around and the estimate of the constant [1] is
    negative. *)
Lemma monte_carlo_estimate_counterexample :
  let run :=
    monte_carlo_integral cycle_doubles unit_density
      (FloatArray [-0x1p600; -0x1p600], FloatArray [0x1p600; 0x1p600]) 1 0%nat in
  let wrapped :=
    monte_carlo_integral cycle_doubles unit_density
      (IntArray (replicate 9 (-100)%Z), IntArray (replicate 9 100%Z)) 1 0%nat in
  (-0x1p600 <? 0x1p600) = true
  /\ is_finite (0x1p600 - -0x1p600) = true
  /\ (exists std_error,
        run = (Ok (infinity, std_error), 2%nat) /\ is_nan std_error = true)
  /\ (200 ^ 9 = 512000000000000000000)%Z
  /\ wrap_int64 (200 ^ 9) = (-4508834063867445248)%Z
  /\ (exists estimate std_error,
        wrapped = (Ok (estimate, std_error), 9%nat) /\ (estimate <? 0) = true).
Proof.
  repeat split; try reflexivity.
  - eexists. split; reflexivity.
  - eexists _, _. split; reflexivity.
Qed.

(** The slices agree with Python on small lists. *)
Example slicing_on_small_lists :
  slice_step 2 [1; 2; 3; 4; 5]%Z = Ok [1; 3; 5]%Z
  /\ slice_step (-2) [1; 2; 3; 4; 5; 6]%Z = Ok [6; 4; 2]%Z
  /\ slice_step 0 [1; 2; 3]%Z = Raise ValueError
  /\ slice_step 3 ([] : list Z) = Ok []
  /\ slice_from 2 [1; 2; 3; 4; 5; 6]%Z = [3; 4; 5; 6]%Z
  /\ slice_from 9 [1; 2; 3; 4; 5; 6]%Z = []
  /\ slice_from (-2) [1; 2; 3; 4; 5; 6]%Z = [5; 6]%Z
  /\ slice_from (-9) [1; 2; 3; 4; 5; 6]%Z = [1; 2; 3; 4; 5; 6]%Z.
Proof. repeat split; reflexivity. Qed.

(** Thinning before the burn-in is not the burn-in before thinning. *)
Example burn_in_counts_thinned_elements :
  drop 1 (every_nth 2 [0; 1; 2; 3; 4; 5; 6]%Z) = [2; 4; 6]%Z
  /\ every_nth 2 (drop 1 [0; 1; 2; 3; 4; 5; 6]%Z) = [1; 3; 5]%Z.
Proof. split; reflexivity. Qed.

(** The blocking analysis of [1 .. 16] with the default [min_blocks]. *)
Example blocking_of_sixteen :
  (r ← blocking_variance (map float_of_Z (seqZ 1 16)) 4; Ok r.1.1)
  = Ok [1; 2; 4]%Z.
Proof. reflexivity. Qed.

End Runs.

Section RealRuns.
Local Open Scope R_scope.

Lemma blocking_estimate_at_scale_witness :
  exists bin_sizes var_mean err_var,
    blocking_variance [1; 2; 4; 8; 16; 32; 64; 128; 256]%R 2
      = Ok (bin_sizes, var_mean, err_var)
    /\ bin_sizes !! 1%nat = Some 2%Z
    /\ var_mean !! 1%nat
       = Some (unbiased_variance
                 (block_means [1; 2; 4; 8; 16; 32; 64; 128; 256]%R 2 4) / 4)%R
    /\ err_var !! 1%nat
       = Some (unbiased_variance
                 (block_means [1; 2; 4; 8; 16; 32; 64; 128; 256]%R 2 4) / 4
               * sqrt (2 / (4 - 1)))%R.
Proof.
  apply (blocking_estimate_at_scale [1; 2; 4; 8; 16; 32; 64; 128; 256]%R 2 1).
  - lia.
  - change (2 <= 4)%Z. lia.
Defined.

Lemma importance_estimate_is_mean_weight_witness :
  importance_integration (fun x => hd 0 x) (fun _ => 2) [[1]; [3]]
  = Rsum (map (fun x => hd 0 x / 2) [[1]; [3]]) / INR 2.
Proof.
  apply (importance_estimate_is_mean_weight (fun x => hd 0 x) (fun _ => 2) [[1]; [3]]).
  - discriminate.
  - repeat constructor; lra.
Defined.

Lemma monte_carlo_estimate_and_error_witness :
  exists estimate,
    (monte_carlo_integral half_doubles (fun x => hd 0 x)
       (IntArray [-3; -3]%Z, IntArray [3; 3]%Z) 1 0%nat).1
    = Ok (estimate, 0).
Proof.
  pose proof (float_limit_gt 6 eq_refl) as Hlimit.
  destruct (monte_carlo_estimate_and_error half_doubles (fun x => hd 0 x)
              (IntArray [-3; -3]%Z) (IntArray [3; 3]%Z) 1 0%nat
              ltac:(repeat constructor; simpl; lra)
              ltac:(repeat constructor; simpl; lra)
              ltac:(simpl; lia) ltac:(lia))
    as (_ & _ & _ & Hone).
  exact (Hone eq_refl).
Defined.

End RealRuns.

(** * Further properties of the blocking analysis *)

Section BlockingErrors.
Context {F : Type} `{Scalar F}.

(** When the call raises, which exception it is depends on the length of
    the series and on [min_blocks] only. *)
Lemma blocking_variance_Raise_length (s1 s2 : list F) min_blocks :
  length s1 = length s2 ->
  ~ (1 <= min_blocks <= Z.of_nat (length s1))%Z ->
  blocking_variance s1 min_blocks = blocking_variance s2 min_blocks.
Proof.
  intros Hlen Hno. unfold blocking_variance, floordiv. rewrite <- Hlen.
  destruct (Z.eqb_spec min_blocks 0); [done|]. simpl.
  assert (Hq : (Z.of_nat (length s1) / min_blocks <= 0)%Z).
  { destruct (Z.le_gt_cases min_blocks 0).
    - pose proof (Z.div_mod (Z.of_nat (length s1)) min_blocks ltac:(lia)).
      pose proof (Z.mod_neg_bound (Z.of_nat (length s1)) min_blocks ltac:(lia)).
      nia.
    - rewrite Z.div_small by lia. lia. }
  pose proof (int_log2_nonpos _ Hq) as Hr.
  by destruct (int_log2 _).
Qed.

(** X1.  A [min_blocks] of zero raises [ZeroDivisionError] (from
    [N // min_blocks]) and a negative one, on a non-empty series, raises
    [ValueError] (from [int] of the NaN that [np.log2] gives on a negative
    number), whatever the series holds. *)
Theorem blocking_nonpositive_min_blocks_raises (series : list F) (min_blocks : Z) :
  (min_blocks <= 0)%Z ->
  (1 <= Z.of_nat (length series))%Z ->
  blocking_variance series min_blocks
  = Raise (if (min_blocks =? 0)%Z then ZeroDivisionError else ValueError).
Proof.
  intros Hm HN. unfold blocking_variance, floordiv.
  destruct (Z.eqb_spec min_blocks 0); [done|]. simpl.
  assert (Hq : (Z.of_nat (length series) / min_blocks < 0)%Z).
  { pose proof (Z.div_mod (Z.of_nat (length series)) min_blocks ltac:(lia)).
    pose proof (Z.mod_neg_bound (Z.of_nat (length series)) min_blocks ltac:(lia)).
    nia. }
  unfold int_log2.
  destruct (Z.eqb_spec (Z.of_nat (length series) / min_blocks) 0); [lia|].
  by destruct (Z.ltb_spec (Z.of_nat (length series) / min_blocks) 0); [|lia].
Qed.

(** X2.  With [1 <= min_blocks <= N] the loop never reaches its [break]:
    the returned block lengths are all the candidates [2^0 .. 2^max_power]
    with [max_power = floor (log2 (N // min_blocks))], so that the slice
    [bin_sizes[:len(var_mean)]] cuts nothing off; the curve has
    [max_power + 1] entries and its largest block length [L] satisfies
    [L <= N // min_blocks < 2 * L]. *)
Theorem blocking_curve_is_every_candidate (series : list F) (min_blocks : Z) :
  (1 <= min_blocks <= Z.of_nat (length series))%Z ->
  let q := (Z.of_nat (length series) / min_blocks)%Z in
  exists var_mean err_var,
    blocking_variance series min_blocks
    = Ok (pow2_arange (Z.log2 q + 1), var_mean, err_var)
    /\ blocking_loop series min_blocks (pow2_arange (Z.log2 q + 1)) [] []
       = Ok (var_mean, err_var)
    /\ Z.of_nat (length var_mean) = (Z.log2 q + 1)%Z
    /\ last (pow2_arange (Z.log2 q + 1)) = Some (2 ^ Z.log2 q)%Z
    /\ (2 ^ Z.log2 q <= q < 2 * 2 ^ Z.log2 q)%Z.
Proof.
  intros Hm q.
  assert (Hq : (1 <= q)%Z) by (apply Z.div_le_lower_bound; lia).
  pose proof (Z.log2_nonneg q) as Hlog.
  eexists _, _. split; [by apply blocking_variance_Ok|].
  split; [by rewrite blocking_loop_all by by apply pow2_arange_enough|].
  split; [rewrite length_map, pow2_arange_length; fold q; lia|].
  split.
  - rewrite last_lookup, pow2_arange_length.
    rewrite pow2_arange_lookup by lia. do 2 f_equal. lia.
  - pose proof (Z.log2_spec q ltac:(lia)) as Hspec.
    rewrite Z.pow_succ_r in Hspec by done. lia.
Qed.

End BlockingErrors.

Section BlockingReal.
Local Open Scope R_scope.

Lemma Rsum_nonneg (l : list R) : Forall (fun v => 0 <= v) l -> 0 <= Rsum l.
Proof. induction 1 as [|v l Hv _ IH]; simpl; lra. Qed.

Lemma Rsum_shift (l : list R) (c : R) :
  Rsum (map (fun v => v + c) l) = Rsum l + INR (length l) * c.
Proof.
  induction l as [|v l IH]; [simpl; lra|].
  cbn [map Rsum fold_right length]. fold (Rsum (map (fun v => v + c) l)).
  fold (Rsum l). rewrite IH, S_INR. lra.
Qed.

Lemma sum_sq_dev_nonneg (l : list R) : 0 <= sum_sq_dev l.
Proof.
  unfold sum_sq_dev. apply Rsum_nonneg, Forall_forall.
  intros v [m [-> _]]%list_elem_of_fmap. apply pow2_ge_0.
Qed.

Lemma unbiased_variance_nonneg (l : list R) :
  (2 <= length l)%nat -> 0 <= unbiased_variance l.
Proof.
  intros Hlen. unfold unbiased_variance.
  apply Rmult_le_pos; [apply sum_sq_dev_nonneg|].
  apply Rlt_le, Rinv_0_lt_compat.
  apply le_INR in Hlen. simpl in Hlen. lra.
Qed.

Lemma arithmetic_mean_shift (l : list R) (c : R) :
  l <> [] -> arithmetic_mean (map (fun v => v + c) l) = arithmetic_mean l + c.
Proof.
  intros Hl. unfold arithmetic_mean. rewrite Rsum_shift, length_map.
  assert (INR (length l) <> 0).
  { apply not_0_INR. by destruct l. }
  by field.
Qed.

(** The deviations from the mean, and with them the variance, do not see
    a constant added to every element. *)
Lemma np_var_shift (ddof : Z) (l : list R) (c : R) :
  np_var ddof (map (fun v => v + c) l) = np_var ddof l.
Proof.
  destruct (decide (l = [])) as [->|Hl]; [done|].
  unfold np_var. rewrite length_map. f_equal. f_equal. f_equal.
  rewrite map_map. apply map_ext. intros v.
  rewrite !np_mean_R, arithmetic_mean_shift by done. simpl. lra.
Qed.

Lemma rows_of_map {A B} (g : A -> B) (rows cols : nat) (a : list A) :
  rows_of rows cols (map g a) = map (map g) (rows_of rows cols a).
Proof.
  revert a. induction rows as [|r IH]; intros a; [done|].
  cbn [rows_of map]. f_equal.
  - symmetry. apply fmap_take.
  - rewrite <- IH. f_equal. symmetry. apply fmap_drop.
Qed.

Lemma rows_of_row_length {A} (rows cols : nat) (a : list A) (row : list A) :
  length a = (rows * cols)%nat -> row ∈ rows_of rows cols a -> length row = cols.
Proof.
  revert a. induction rows as [|r IH]; intros a Hlen Hin; simpl in Hin.
  - by apply elem_of_nil in Hin.
  - apply elem_of_cons in Hin as [->|Hin].
    + rewrite length_take. simpl in Hlen. lia.
    + apply (IH (drop cols a)); [|done]. rewrite length_drop. simpl in Hlen. lia.
Qed.

Lemma blocking_entry_shift (series : list R) (c : R) (L : Z) :
  (0 < L)%Z ->
  blocking_entry (map (fun v => v + c) series) L = blocking_entry series L.
Proof.
  intros HL. unfold blocking_entry. rewrite length_map.
  set (n := (Z.of_nat (length series) / L)%Z).
  assert (Hn : (0 <= n)%Z) by (apply Z.div_pos; lia).
  assert (Hle : (n * L <= Z.of_nat (length series))%Z).
  { pose proof (Z.mul_div_le (Z.of_nat (length series)) L HL). unfold n. lia. }
  rewrite <- fmap_take, rows_of_map, map_map.
  assert (Hmeans :
    map (fun row => np_mean (map (fun v => v + c) row))
        (rows_of (Z.to_nat n) (Z.to_nat L) (take (Z.to_nat (n * L)) series))
    = map (fun m => m + c)
        (map np_mean
           (rows_of (Z.to_nat n) (Z.to_nat L) (take (Z.to_nat (n * L)) series)))).
  { rewrite map_map. apply map_ext_in. intros row Hrow.
    rewrite !np_mean_R. apply arithmetic_mean_shift.
    apply list_elem_of_In in Hrow.
    apply rows_of_row_length in Hrow.
    - intros ->. simpl in Hrow. lia.
    - rewrite length_take, <- Z2Nat.inj_mul by lia. lia. }
  by rewrite Hmeans, np_var_shift.
Qed.

(** X3.  Over the reals, with [min_blocks >= 2] every variance-of-mean
    estimate and every uncertainty of a returned curve is non-negative. *)
Theorem blocking_estimates_nonnegative (series : list R) (min_blocks : Z)
    (bin_sizes : list Z) (var_mean err_var : list R) :
  (2 <= min_blocks)%Z ->
  blocking_variance series min_blocks = Ok (bin_sizes, var_mean, err_var) ->
  Forall (fun v => 0 <= v) var_mean /\ Forall (fun e => 0 <= e) err_var.
Proof.
  intros Hmb Hret.
  assert (Hm : (1 <= min_blocks <= Z.of_nat (length series))%Z).
  { destruct (decide (1 <= min_blocks <= Z.of_nat (length series))%Z) as [|Hno]; [done|].
    apply (blocking_variance_Raise series) in Hno. by rewrite Hret in Hno. }
  rewrite blocking_variance_Ok in Hret by done.
  injection Hret as _ <- <-.
  pose proof (pow2_arange_enough series min_blocks Hm) as Hall.
  assert (Hentry : Forall (fun L => 0 <= (blocking_entry series L).1
                                    /\ 0 <= (blocking_entry series L).2)
                     (pow2_arange (Z.log2 (Z.of_nat (length series) / min_blocks) + 1))).
  { eapply Forall_impl; [exact Hall|]. intros L [HL Hn]. cbn beta in *.
    rewrite blocking_entry_R by lia. cbn [fst snd].
    set (n := (Z.of_nat (length series) / L)%Z) in *.
    assert (Hs2 : 0 <= unbiased_variance (block_means series (Z.to_nat L) (Z.to_nat n))).
    { apply unbiased_variance_nonneg. rewrite block_means_length. lia. }
    assert (Hv : 0 <= unbiased_variance (block_means series (Z.to_nat L) (Z.to_nat n)) / IZR n).
    { apply Rmult_le_pos; [done|]. apply Rlt_le, Rinv_0_lt_compat.
      apply IZR_lt. lia. }
    split; [done|]. apply Rmult_le_pos; [done|apply sqrt_pos]. }
  split; apply Forall_fmap; (eapply Forall_impl; [exact Hentry|]); by intros L [? ?].
Qed.

(** X4.  Over the reals the analysis does not see a constant added to the
    series: block lengths, estimates and uncertainties (or the exception)
    are those of the series itself. *)
Theorem blocking_shift_invariant (series : list R) (c : R) (min_blocks : Z) :
  blocking_variance (map (fun v => v + c) series) min_blocks
  = blocking_variance series min_blocks.
Proof.
  destruct (decide (1 <= min_blocks <= Z.of_nat (length series))%Z) as [Hm|Hno].
  - rewrite !blocking_variance_Ok by (by rewrite ?length_map).
    rewrite length_map.
    pose proof (pow2_arange_enough series min_blocks Hm) as Hall.
    rewrite Forall_forall in Hall.
    do 2 f_equal; [f_equal|]; apply map_ext_in; intros L HL;
      apply list_elem_of_In, Hall in HL as [HL _];
      by rewrite blocking_entry_shift.
  - apply blocking_variance_Raise_length; [apply length_map|].
    by rewrite length_map.
Qed.

End BlockingReal.

Section BlockingConstant.
Local Open Scope R_scope.

Lemma Rsum_const (l : list R) (c : R) :
  Forall (fun v => v = c) l -> Rsum l = INR (length l) * c.
Proof.
  induction 1 as [|v l -> _ IH]; [simpl; lra|].
  cbn [Rsum fold_right length]. fold (Rsum l). rewrite IH, S_INR. lra.
Qed.

Lemma Rsum_zeros (l : list R) : Forall (fun v => v = 0) l -> Rsum l = 0.
Proof. intros Hl. rewrite (Rsum_const l 0) by done. lra. Qed.

Lemma np_mean_const (l : list R) (c : R) :
  Forall (fun v => v = c) l -> l <> [] -> np_mean l = c.
Proof.
  intros Hl Hne. rewrite np_mean_R. unfold arithmetic_mean.
  rewrite (Rsum_const l c) by done.
  assert (INR (length l) <> 0) by (apply not_0_INR; by destruct l).
  by field.
Qed.

Lemma np_var_const (ddof : Z) (l : list R) (c : R) :
  Forall (fun v => v = c) l -> np_var ddof l = 0.
Proof.
  intros Hl. unfold np_var. rewrite np_sum_R, Rsum_zeros.
  - simpl. unfold Rdiv. apply Rmult_0_l.
  - destruct (decide (l = [])) as [->|Hne]; [constructor|].
    rewrite (np_mean_const l c) by done.
    apply Forall_fmap, Forall_fmap. eapply Forall_impl; [exact Hl|].
    intros v ->. simpl. lra.
Qed.

Lemma rows_of_Forall {A} (P : A -> Prop) (rows cols : nat) (a : list A) :
  Forall P a -> Forall (Forall P) (rows_of rows cols a).
Proof.
  revert a. induction rows as [|r IH]; intros a Ha; simpl; constructor.
  - by apply Forall_take.
  - by apply IH, Forall_drop.
Qed.

Lemma blocking_entry_const (series : list R) (c : R) (L : Z) :
  Forall (fun v => v = c) series -> (0 < L)%Z ->
  blocking_entry series L = (0, 0).
Proof.
  intros Hc HL. unfold blocking_entry.
  set (n := (Z.of_nat (length series) / L)%Z).
  assert (Hn : (0 <= n)%Z) by (apply Z.div_pos; lia).
  assert (Hle : (n * L <= Z.of_nat (length series))%Z).
  { pose proof (Z.mul_div_le (Z.of_nat (length series)) L HL). unfold n. lia. }
  rewrite (np_var_const _ _ c).
  - simpl. f_equal; unfold Rdiv; by rewrite !Rmult_0_l.
  - apply Forall_fmap, Forall_forall. intros row Hrow. simpl.
    apply np_mean_const.
    + pose proof (rows_of_Forall (fun v => v = c) (Z.to_nat n) (Z.to_nat L)
                    (take (Z.to_nat (n * L)) series) (Forall_take _ _ _ Hc)) as Hrows.
      rewrite Forall_forall in Hrows. by apply Hrows.
    + apply rows_of_row_length in Hrow.
      * intros ->. simpl in Hrow. lia.
      * rewrite length_take, <- Z2Nat.inj_mul by lia. lia.
Qed.

(** X5.  Over the reals, a series whose elements are all equal has a
    curve of zeros: with [min_blocks >= 2], every variance-of-mean
    estimate and every uncertainty returned is [0]. *)
Theorem blocking_constant_series (series : list R) (c : R) (min_blocks : Z)
    (bin_sizes : list Z) (var_mean err_var : list R) :
  Forall (fun v => v = c) series ->
  (2 <= min_blocks)%Z ->
  blocking_variance series min_blocks = Ok (bin_sizes, var_mean, err_var) ->
  Forall (fun v => v = 0) var_mean /\ Forall (fun e => e = 0) err_var.
Proof.
  intros Hc _ Hret.
  assert (Hm : (1 <= min_blocks <= Z.of_nat (length series))%Z).
  { destruct (decide (1 <= min_blocks <= Z.of_nat (length series))%Z) as [|Hno]; [done|].
    apply (blocking_variance_Raise series) in Hno. by rewrite Hret in Hno. }
  rewrite blocking_variance_Ok in Hret by done.
  injection Hret as _ <- <-.
  pose proof (pow2_arange_enough series min_blocks Hm) as Hall.
  rewrite Forall_forall in Hall.
  split; apply Forall_fmap, Forall_forall; intros L [HL _]%Hall.
  - change ((blocking_entry series L).1 = 0).
    by rewrite (blocking_entry_const series c).
  - change ((blocking_entry series L).2 = 0).
    by rewrite (blocking_entry_const series c).
Qed.

End BlockingConstant.

(** * Further properties of the slices *)

Section SlicingMore.
Context {A : Type} `{Inhabited A}.

(** A negative step walks the list from its last element backwards. *)
Lemma slice_step_neg (t : Z) (l : list A) :
  (1 <= t)%Z -> slice_step (- t) l = Ok (every_nth (Z.to_nat t) (reverse l)).
Proof.
  intros Ht. unfold slice_step.
  destruct (Z.eqb_spec (- t) 0); [lia|].
  destruct (Z.ltb_spec 0 (- t)); [lia|].
  rewrite Z.abs_opp, slicelength_ceil by lia.
  pose proof (ceil_div_spec (Z.of_nat (length l)) t ltac:(lia)) as Hc.
  f_equal. apply list_eq. intros i.
  rewrite every_nth_lookup, list_lookup_fmap by lia.
  destruct (decide (i < Z.to_nat (ceil_div (Z.of_nat (length l)) t))%nat) as [Hi|Hi].
  - rewrite lookup_seq_lt by done. simpl.
    rewrite reverse_lookup by nia.
    replace (Z.to_nat (Z.of_nat (length l) - 1 + Z.of_nat i * - t))
      with (length l - S (i * Z.to_nat t))%nat by nia.
    symmetry. apply list_lookup_lookup_total_lt. nia.
  - rewrite lookup_seq_ge by lia. simpl. symmetry.
    apply lookup_ge_None. rewrite length_reverse. nia.
Qed.

(** A negative start keeps that many elements from the end. *)
Lemma slice_from_neg (start : Z) (l : list A) :
  (start < 0)%Z ->
  slice_from start l = drop (length l - Z.to_nat (- start)) l.
Proof.
  intros Hs. unfold slice_from.
  destruct (Z.ltb_spec start 0); [|lia].
  f_equal. lia.
Qed.

Lemma every_nth_Forall (P : A -> Prop) (t : nat) (l : list A) :
  (1 <= t)%nat -> Forall P l -> Forall P (every_nth t l).
Proof.
  intros Ht Hl. apply Forall_lookup. intros i x Hx.
  rewrite every_nth_lookup in Hx by done.
  by eapply (Forall_lookup_1 P l).
Qed.

(** Whatever the step, a slice holds elements of the list only. *)
Lemma slice_step_Forall (P : A -> Prop) (step : Z) (l r : list A) :
  Forall P l -> slice_step step l = Ok r -> Forall P r.
Proof.
  intros Hl Hr.
  destruct (Z.lt_trichotomy step 0) as [Hneg|[->|Hpos]].
  - replace step with (- (- step))%Z in Hr by lia.
    rewrite slice_step_neg in Hr by lia. injection Hr as <-.
    apply every_nth_Forall; [lia|]. by apply Forall_reverse.
  - done.
  - rewrite slice_step_pos in Hr by lia. injection Hr as <-.
    apply every_nth_Forall; [lia|done].
Qed.

Lemma slice_from_Forall (P : A -> Prop) (start : Z) (l : list A) :
  Forall P l -> Forall P (slice_from start l).
Proof. intros Hl. unfold slice_from. by apply Forall_drop. Qed.

(** Keeping every [a]-th element and then every [b]-th of those keeps
    every [a * b]-th element. *)
Lemma every_nth_compose (a b : nat) (l : list A) :
  (1 <= a)%nat -> (1 <= b)%nat ->
  every_nth b (every_nth a l) = every_nth (a * b) l.
Proof.
  intros Ha Hb. apply list_eq. intros i.
  rewrite !every_nth_lookup by nia. f_equal. lia.
Qed.

End SlicingMore.

(** * Further properties of the Gibbs accept-reject sampler *)

Section GibbsMore.
Context {F : Type} `{Scalar F}.
Context {RNG : Type} (next_double : RNG -> F * RNG).
Implicit Types (x : list F) (g : RNG) (target_pdf : list F -> F).

Lemma after_sweeps_length step_size target_pdf (d n : nat) x g :
  length (after_sweeps next_double step_size target_pdf d n x g).1 = length x.
Proof.
  induction n as [|n IH]; [done|].
  unfold after_sweeps in *. simpl Nat.iter.
  by rewrite gibbs_sweep_length.
Qed.

Lemma recorded_chain_Forall (P : list F -> Prop) x0 N step_size target_pdf g :
  (forall n : nat,
     P (after_sweeps next_double step_size target_pdf (length x0) n x0 g).1) ->
  Forall P (recorded_chain next_double x0 N step_size target_pdf g).
Proof.
  intros HP. unfold recorded_chain. rewrite gibbs_loop_spec. cbn [fst app].
  apply Forall_fmap, Forall_forall. intros i _. apply HP.
Qed.

(** X7.  Every state of the returned chain has as many coordinates as
    [x0], for every thinning step and burn-in for which the call
    returns. *)
Theorem gibbs_chain_dimension x0 (thinning burnin N : Z) step_size target_pdf g
    (chain : list (list F)) :
  (gibbs_accept_reject next_double x0 thinning burnin N step_size target_pdf g).1
    = Ok chain ->
  Forall (fun s => length s = length x0) chain.
Proof.
  rewrite gibbs_accept_reject_slices. intros Hrun.
  destruct (slice_step thinning _) as [thinned|e] eqn:Hthin; [|done].
  injection Hrun as <-.
  apply slice_from_Forall. eapply slice_step_Forall; [|exact Hthin].
  apply recorded_chain_Forall. intros n. apply after_sweeps_length.
Qed.

(** X9.  A negative burn-in does not discard from the front: with
    [thinning >= 1] and [burnin < 0] the call returns the last [-burnin]
    states of the thinned chain (all of them when there are fewer). *)
Theorem gibbs_negative_burn_in_keeps_tail x0 (thinning burnin N : Z)
    step_size target_pdf g :
  (1 <= thinning)%Z -> (burnin < 0)%Z ->
  let thinned := every_nth (Z.to_nat thinning)
                   (recorded_chain next_double x0 N step_size target_pdf g) in
  exists chain,
    (gibbs_accept_reject next_double x0 thinning burnin N step_size target_pdf g).1
      = Ok chain
    /\ chain = drop (length thinned - Z.to_nat (- burnin)) thinned
    /\ length chain = Nat.min (Z.to_nat (- burnin)) (length thinned).
Proof.
  intros Ht Hb thinned. eexists. split; [|split; [reflexivity|]].
  - rewrite gibbs_accept_reject_slices, slice_step_pos by done. simpl.
    by rewrite slice_from_neg.
  - rewrite length_drop. lia.
Qed.

(** X10.  A negative thinning step returns the chain newest first: with
    [thinning = - t], [t >= 1], and [burnin >= 0] the result is every
    [t]-th state of the reversed recorded chain, the last recorded state
    first, with the first [burnin] of those dropped. *)
Theorem gibbs_negative_thinning_reverses x0 (t burnin N : Z)
    step_size target_pdf g :
  (1 <= t)%Z -> (0 <= burnin)%Z ->
  (gibbs_accept_reject next_double x0 (- t) burnin N step_size target_pdf g).1
  = Ok (drop (Z.to_nat burnin)
          (every_nth (Z.to_nat t)
             (reverse (recorded_chain next_double x0 N step_size target_pdf g)))).
Proof.
  intros Ht Hb.
  rewrite gibbs_accept_reject_slices, slice_step_neg by done. simpl.
  by rewrite slice_from_nonneg.
Qed.

(** X11.  Thinning composes: with no burn-in, the call with thinning step
    [a * b] returns every [b]-th state of what the call with thinning
    step [a] returns on the same inputs. *)
Theorem gibbs_thinning_composes x0 (a b N : Z) step_size target_pdf g :
  (1 <= a)%Z -> (1 <= b)%Z ->
  exists chain_a,
    (gibbs_accept_reject next_double x0 a 0 N step_size target_pdf g).1 = Ok chain_a
    /\ (gibbs_accept_reject next_double x0 (a * b) 0 N step_size target_pdf g).1
       = Ok (every_nth (Z.to_nat b) chain_a).
Proof.
  intros Ha Hb.
  exists (every_nth (Z.to_nat a)
            (recorded_chain next_double x0 N step_size target_pdf g)).
  split.
  - rewrite gibbs_accept_reject_slices, slice_step_pos by done. simpl.
    by rewrite slice_from_nonneg.
  - rewrite gibbs_accept_reject_slices, slice_step_pos by nia. simpl.
    rewrite slice_from_nonneg, Z2Nat.inj_mul by lia.
    by rewrite <- every_nth_compose by lia.
Qed.

End GibbsMore.

Section GibbsChecked.
Context {F : Type} `{Scalar F} `{Checks F}.
Context {RNG : Type} (next_double : RNG -> F * RNG).
Implicit Types (g : RNG) (target_pdf : list F -> F).



(** X28.  The step size is checked by the first draw: when its range
    [h - (-h)] is not finite the call raises [OverflowError], when it is
    finite with the sign bit set (a negative [h]) it raises [ValueError],
    in both cases before any double is drawn, provided there is a first
    update to make ([N >= 1] and a non-empty [x0]); whatever the density,
    the thinning step and the burn-in are. *)
Theorem gibbs_bad_step_size_raises (x0 : array F) (thinning burnin N : Z)
    step_size (k : quotient) target_pdf g :
  (1 <= N)%Z ->
  array_values x0 <> [] ->
  ~ Checked.range_ok (fneg step_size) step_size ->
  Checked.gibbs_accept_reject next_double x0 thinning burnin N step_size k
    target_pdf g
  = (Raise (if fisfinite (fsub step_size (fneg step_size))
            then ValueError else OverflowError), g).
Proof.
  intros HN Hne Hbad. unfold Checked.gibbs_accept_reject.
  destruct (Z.to_nat N) as [|n] eqn:Hn; [lia|].
  destruct (array_values x0) as [|v vs] eqn:Hx; [done|].
  cbn [length]. by rewrite checked_gibbs_loop_bad_range.
Qed.


End GibbsChecked.

Section GibbsReal.
Local Open Scope R_scope.
Context {RNG : Type} (next_double : RNG -> R * RNG).
Implicit Types (x : list R) (g : RNG) (target_pdf : list R -> R).

Lemma uniform01_range g :
  unit_source next_double ->
  0 <= (uniform01 next_double g).1 < 1.
Proof.
  intros Hsrc. unfold uniform01, uniform. specialize (Hsrc g).
  destruct (next_double g) as [u g']. simpl in *. lra.
Qed.

Lemma proposal_step_bound (step_size : R) g :
  unit_source next_double ->
  Rabs (uniform next_double (- step_size) step_size g).1 <= Rabs step_size.
Proof.
  intros Hsrc. unfold uniform. specialize (Hsrc g).
  destruct (next_double g) as [u g']. simpl in *.
  replace (- step_size + (step_size - - step_size) * u)
    with (step_size * (2 * u - 1)) by lra.
  rewrite Rabs_mult. rewrite <- (Rmult_1_r (Rabs step_size)) at 2.
  apply Rmult_le_compat_l; [apply Rabs_pos|].
  apply Rabs_le. lra.
Qed.

(** X12.  Over the reals and with a source of doubles in [[0, 1)], one
    update from a state of positive density moves to the proposal
    whenever the proposal's density is at least the current one, and
    stays where it is whenever the proposal's density is zero. *)
Theorem gibbs_update_uphill_and_zero (step_size : R) target_pdf x (j : nat) g :
  unit_source next_double ->
  0 < target_pdf x ->
  let delta := (uniform next_double (- step_size) step_size g).1 in
  let x_prop := <[j := getitem x j + delta]> x in
  let step := gibbs_update next_double step_size target_pdf x j g in
  (target_pdf x <= target_pdf x_prop -> step.1 = x_prop)
  /\ (target_pdf x_prop = 0 -> step.1 = x).
Proof.
  intros Hsrc Hpos delta x_prop step.
  unfold step. rewrite gibbs_update_cases. cbn [fst].
  change (fneg step_size) with (- step_size).
  change (fadd (getitem x j) (uniform next_double (- step_size) step_size g).1)
    with (getitem x j + delta).
  fold x_prop.
  pose proof (uniform01_range
                (uniform next_double (- step_size) step_size g).2 Hsrc) as Hu.
  set (u := (uniform01 next_double
               (uniform next_double (- step_size) step_size g).2).1) in *.
  change (fltb u (fdiv (target_pdf x_prop) (target_pdf x)))
    with (Rltb u (target_pdf x_prop / target_pdf x)).
  split.
  - intros Hup.
    assert (Hr : 1 <= target_pdf x_prop / target_pdf x).
    { apply (Rmult_le_reg_r (target_pdf x)); [done|].
      unfold Rdiv. rewrite Rmult_assoc, Rinv_l by lra. lra. }
    destruct (Rltb u _) eqn:Hlt; [done|].
    apply Rltb_false in Hlt. lra.
  - intros Hzero. rewrite Hzero. unfold Rdiv. rewrite Rmult_0_l.
    destruct (Rltb u 0) eqn:Hlt; [|done].
    apply Rltb_true in Hlt. lra.
Qed.

Lemma gibbs_update_positive (step_size : R) target_pdf x (j : nat) g :
  unit_source next_double ->
  0 < target_pdf x ->
  0 < target_pdf (gibbs_update next_double step_size target_pdf x j g).1.
Proof.
  intros Hsrc Hpos. rewrite gibbs_update_cases. cbn [fst].
  pose proof (uniform01_range
                (uniform next_double (fneg step_size) step_size g).2 Hsrc) as Hu.
  set (u := (uniform01 next_double
               (uniform next_double (fneg step_size) step_size g).2).1) in *.
  set (x_prop := <[j := _]> x).
  change (fltb u (fdiv (target_pdf x_prop) (target_pdf x)))
    with (Rltb u (target_pdf x_prop / target_pdf x)).
  destruct (Rltb u _) eqn:Hlt; [|done].
  apply Rltb_true in Hlt.
  assert (Hr : 0 < target_pdf x_prop / target_pdf x) by lra.
  replace (target_pdf x_prop)
    with (target_pdf x_prop / target_pdf x * target_pdf x) by (field; lra).
  by apply Rmult_lt_0_compat.
Qed.

Lemma gibbs_sweep_positive (step_size : R) target_pdf (d : nat) x g :
  unit_source next_double ->
  0 < target_pdf x ->
  0 < target_pdf (gibbs_sweep next_double step_size target_pdf d x g).1.
Proof.
  intros Hsrc. unfold gibbs_sweep. generalize (seq 0 d). intros js.
  revert x g. induction js as [|j js IH]; intros x g Hpos; [done|].
  simpl.
  pose proof (gibbs_update_positive step_size target_pdf x j g Hsrc Hpos) as Hstep.
  destruct (gibbs_update next_double step_size target_pdf x j g) as [x' g'].
  by apply IH.
Qed.

Lemma after_sweeps_positive (step_size : R) target_pdf (d n : nat) x g :
  unit_source next_double ->
  0 < target_pdf x ->
  0 < target_pdf (after_sweeps next_double step_size target_pdf d n x g).1.
Proof.
  intros Hsrc Hpos. induction n as [|n IH]; [done|].
  unfold after_sweeps in *. simpl Nat.iter. by apply gibbs_sweep_positive.
Qed.

(** X13.  Over the reals and with a source of doubles in [[0, 1)], a run
    started where the density is positive never leaves the region of
    positive density: the density is positive at every state of the
    returned chain, so no quotient formed from these states, in the
    sampler or in the estimator, has a zero denominator. *)
Theorem gibbs_stays_in_support x0 (thinning burnin N : Z) (step_size : R)
    target_pdf g (chain : list (list R)) :
  unit_source next_double ->
  0 < target_pdf x0 ->
  (gibbs_accept_reject next_double x0 thinning burnin N step_size target_pdf g).1
    = Ok chain ->
  Forall (fun s => 0 < target_pdf s) chain.
Proof.
  intros Hsrc Hpos. rewrite gibbs_accept_reject_slices. intros Hrun.
  destruct (slice_step thinning _) as [thinned|e] eqn:Hthin; [|done].
  injection Hrun as <-.
  apply slice_from_Forall. eapply slice_step_Forall; [|exact Hthin].
  apply recorded_chain_Forall. intros n. by apply after_sweeps_positive.
Qed.

Lemma range_ok_R (low high : R) :
  0 <= high - low < float_limit -> Checked.range_ok low high.
Proof.
  intros Hle. unfold Checked.range_ok.
  change (fsub high low) with (high - low). split.
  - apply isfinite_R. rewrite Rabs_pos_eq; lra.
  - cbn [fsignbit R_checks]. apply Rltb_false. lra.
Qed.

(** The contract of the step size over the reals: not negative, and with
    a range [2 h] that a double can hold. *)
Lemma draws_ok_R (step_size : R) :
  0 <= step_size -> 2 * step_size < float_limit -> Checked.draws_ok step_size.
Proof.
  intros Hh Hfin. split; apply range_ok_R.
  - change (fneg step_size) with (- step_size). lra.
  - pose proof (float_limit_gt 1 eq_refl). change (0 <= 1 - 0 < float_limit). lra.
Qed.

(** Inside the contract and over the reals, the checked update in terms
    of the two doubles it draws. *)
Lemma checked_gibbs_update_R (step_size : R) (k : quotient) target_pdf
    x (j : nat) g :
  0 <= step_size -> 2 * step_size < float_limit ->
  target_pdf x <> 0 ->
  let u0 := nth_double next_double 0 g in
  let u1 := nth_double next_double 1 g in
  let delta := - step_size + 2 * step_size * u0 in
  let x_prop := <[j := getitem x j + delta]> x in
  let r := target_pdf x_prop / target_pdf x in
  Checked.gibbs_update next_double float64 k step_size target_pdf x j g
  = (Ok (if Rltb u1 r then x_prop else x), advance next_double 2 g).
Proof.
  intros Hh Hfin Hpdf u0 u1 delta x_prop r.
  destruct (draws_ok_R step_size Hh Hfin) as [Hok H01].
  rewrite checked_gibbs_update_Ok; [|done|done|].
  2:{ right. cbn [fiszero R_checks]. by destruct (Req_dec_T (target_pdf x) 0). }
  cbn zeta. unfold uniform01. rewrite !uniform_advance.
  rewrite <- (advance_add next_double 1 1 g). cbn [Nat.add].
  assert (Hdelta : (uniform next_double (fneg step_size) step_size g).1 = delta).
  { unfold uniform, delta, u0, nth_double.
    change (advance next_double 0 g) with g.
    destruct (next_double g) as [v g']. cbn [fst fadd fmul fsub fneg R_scalar].
    lra. }
  assert (Hu : (uniform next_double (of_Z 0) (of_Z 1) (advance next_double 1 g)).1
               = u1).
  { unfold uniform, u1, nth_double.
    destruct (next_double (advance next_double 1 g)) as [v g'].
    cbn [fst fadd fmul fsub of_Z R_scalar]. lra. }
  rewrite Hu, Hdelta. unfold Checked.setitem.
  change (fadd (getitem x j) delta) with (getitem x j + delta). fold x_prop.
  change (fdiv (target_pdf x_prop) (target_pdf x)) with r.
  change (fltb u1 r) with (Rltb u1 r).
  destruct (Rltb u1 r); [|done]. do 2 f_equal.
  destruct (decide (j < length x)%nat) as [Hj|Hj].
  - by apply commit_is_proposal.
  - unfold x_prop. by rewrite !list_insert_ge by lia.
Qed.

(** X29.  One inner step inside the contract, over the reals: for a
    float state, a step size [h > 0] whose range [2 h] is finite, a
    source of doubles in [[0, 1)] and
    a density that does not vanish at the current state (whichever kind
    of float it returns), the update draws two doubles [u0] and [u1] one
    after the other; the perturbation is [delta = -h + 2 h u0], a point
    of [[-h, h)]; the proposal is the state with coordinate [j] alone
    replaced by [x[j] + delta]; [u1], a point of [[0, 1)], is compared
    with the ratio [target_pdf x_prop / target_pdf x]; the update returns
    the proposal when [u1] is below the ratio and the unchanged state
    otherwise, and raises nothing. *)
Theorem gibbs_inner_step_in_contract (step_size : R) (k : quotient) target_pdf
    x (j : nat) g :
  unit_source next_double ->
  0 < step_size -> 2 * step_size < float_limit ->
  target_pdf x <> 0 ->
  let u0 := nth_double next_double 0 g in
  let u1 := nth_double next_double 1 g in
  let delta := - step_size + 2 * step_size * u0 in
  let x_prop := <[j := getitem x j + delta]> x in
  let r := target_pdf x_prop / target_pdf x in
  let step :=
    Checked.gibbs_update next_double float64 k step_size target_pdf x j g in
  - step_size <= delta < step_size
  /\ 0 <= u1 < 1
  /\ (forall i : nat, i <> j -> x_prop !! i = x !! i)
  /\ ((j < length x)%nat -> x_prop !! j = Some (getitem x j + delta))
  /\ (u1 < r -> step = (Ok x_prop, advance next_double 2 g))
  /\ (~ u1 < r -> step = (Ok x, advance next_double 2 g)).
Proof.
  intros Hsrc Hh Hfin Hpdf u0 u1 delta x_prop r step.
  pose proof (Hsrc g) as Hu0. pose proof (Hsrc (advance next_double 1 g)) as Hu1.
  fold (nth_double next_double 1 g) in Hu1. fold u1 in Hu1.
  change (next_double g).1 with u0 in Hu0.
  assert (Hstep : step = (Ok (if Rltb u1 r then x_prop else x),
                          advance next_double 2 g)).
  { unfold step. apply checked_gibbs_update_R; [lra|done|done]. }
  split; [unfold delta; nra|]. split; [done|].
  split; [intros i Hi; by apply list_lookup_insert_ne|].
  split; [intros Hj; by apply list_lookup_insert_eq|].
  split; intros Hlt; rewrite Hstep.
  - by apply Rltb_true in Hlt as ->.
  - by apply Rltb_false in Hlt as ->.
Qed.

End GibbsReal.

Section GibbsInteger.
Local Open Scope R_scope.
Context {RNG : Type} (next_double : RNG -> R * RNG).

Lemma Rtrunc_small (v : R) : -1 < v < 1 -> Rtrunc v = 0.
Proof.
  intros Hv. unfold Rtrunc. destruct (Rle_dec 0 v).
  - by rewrite <- (Int_part_spec v 0) by (simpl; lra).
  - rewrite <- (Int_part_spec (- v) 0) by (simpl; lra). simpl. lra.
Qed.

(** At the origin of an [int64] state every update that returns leaves
    the state where it is: the perturbed coordinate is below [1] in
    magnitude and is stored as [0]. *)
Lemma gibbs_update_origin (d : nat) (k : quotient) (step_size : R)
    (target_pdf : list R -> R) (j : nat) g x' g' :
  unit_source next_double ->
  0 < step_size < 1 ->
  Checked.gibbs_update next_double int64 k step_size target_pdf
    (replicate d 0) j g = (Ok x', g') ->
  x' = replicate d 0.
Proof.
  intros Hsrc Hh. unfold Checked.gibbs_update.
  pose proof (float_limit_gt 2 eq_refl) as Hlimit.
  destruct (draws_ok_R step_size ltac:(lra) ltac:(lra)) as [Hok H01].
  rewrite (checked_uniform_Ok _ _ _ _ Hok).
  set (delta := (uniform next_double (fneg step_size) step_size g).1).
  assert (Hdelta : -1 < delta < 1).
  { unfold delta, uniform. pose proof (Hsrc g) as Hu.
    destruct (next_double g) as [u g1]. cbn [fst fadd fmul fsub fneg R_scalar] in *.
    nra. }
  assert (Hget : forall y, y = replicate d 0 -> getitem y j = 0).
  { intros y ->. unfold getitem. destruct (decide (j < d)%nat) as [Hj|Hj].
    - apply nth_lookup_Some. by apply lookup_replicate_2.
    - apply nth_overflow. rewrite length_replicate. lia. }
  assert (Hprop : Checked.setitem int64 (replicate d 0) j
                    (fadd (getitem (replicate d 0) j) delta) = replicate d 0).
  { unfold Checked.setitem. rewrite (Hget _ eq_refl).
    change (fint64 (fadd 0 delta)) with (Rtrunc (0 + delta)).
    rewrite Rtrunc_small by lra. apply insert_replicate. }
  rewrite Hprop.
  destruct (Checked.truediv k _ _) as [r|e]; [|done].
  rewrite (checked_uniform_Ok _ _ _ _ H01).
  destruct (fltb _ r); intros Hrun; injection Hrun as <- _; [|done].
  unfold Checked.setitem. rewrite (Hget _ eq_refl).
  change (fint64 0) with (Rtrunc 0).
  rewrite Rtrunc_small by lra. apply insert_replicate.
Qed.

(** X31.  An integer state at the origin never moves: for [x0] a list of
    [d] Python integers [0], a step size [0 < h < 1] and a source of
    doubles in [[0, 1)], every state of a returned chain is the origin,
    whatever the density, the kind of float it returns, the thinning step
    and the burn-in are.  (The proposals [0 + delta] are cut back to [0]
    by the [int64] array that [np.array(x0)] is.) *)
Theorem gibbs_integer_origin_never_moves (d : nat) (thinning burnin N : Z)
    (step_size : R) (k : quotient) (target_pdf : list R -> R) g
    (chain : list (list R)) :
  unit_source next_double ->
  0 < step_size < 1 ->
  (Checked.gibbs_accept_reject next_double (IntArray (replicate d 0%Z))
     thinning burnin N step_size k target_pdf g).1 = Ok chain ->
  Forall (fun s => s = replicate d 0) chain.
Proof.
  intros Hsrc Hh. unfold Checked.gibbs_accept_reject.
  cbn [array_values array_dtype].
  change (map of_Z (replicate d 0%Z)) with (IZR <$> replicate d 0%Z).
  rewrite fmap_replicate, length_replicate.
  destruct (Checked.gibbs_loop _ _ _ _ _ _ _ _ _ _) as [[recorded|e] g'] eqn:Hloop;
    [|done].
  cbn [fst]. intros Hrun.
  assert (Hrec : Forall (fun s => s = replicate d 0) recorded).
  { eapply (checked_gibbs_loop_invariant next_double (fun s => s = replicate d 0));
      [|reflexivity|constructor|exact Hloop].
    intros y j g1 y' g2 -> Hu. by eapply gibbs_update_origin. }
  destruct (slice_step thinning recorded) as [thinned|e] eqn:Hthin; [|done].
  injection Hrun as <-.
  apply slice_from_Forall. by eapply slice_step_Forall.
Qed.

End GibbsInteger.

Section GibbsDisplacement.
Local Open Scope R_scope.
Context {RNG : Type} (next_double : RNG -> R * RNG).
Implicit Types (x : list R) (g : RNG) (target_pdf : list R -> R).

Lemma gibbs_sweep_succ (step_size : R) target_pdf (d : nat) x g :
  gibbs_sweep next_double step_size target_pdf (S d) x g
  = gibbs_update next_double step_size target_pdf
      (gibbs_sweep next_double step_size target_pdf d x g).1 d
      (gibbs_sweep next_double step_size target_pdf d x g).2.
Proof. unfold gibbs_sweep. by rewrite seq_S, fold_left_app. Qed.

(** One update leaves every coordinate but [j] alone and moves
    coordinate [j] by at most the step size. *)
Lemma gibbs_update_coordinates (step_size : R) target_pdf x (j : nat) g :
  unit_source next_double ->
  let x' := (gibbs_update next_double step_size target_pdf x j g).1 in
  (forall i : nat, i <> j -> x' !! i = x !! i)
  /\ (forall v v' : R, x !! j = Some v -> x' !! j = Some v' ->
        Rabs (v' - v) <= Rabs step_size).
Proof.
  intros Hsrc x'. unfold x'. rewrite gibbs_update_cases. cbn [fst].
  pose proof (proposal_step_bound next_double step_size g Hsrc) as Hdelta.
  change (fneg step_size) with (- step_size).
  set (delta := (uniform next_double (- step_size) step_size g).1) in *.
  destruct (fltb _ _).
  - split.
    + intros i Hi. by apply list_lookup_insert_ne.
    + intros v v' Hv Hv'.
      rewrite list_lookup_insert_eq in Hv' by by eapply lookup_lt_Some.
      injection Hv' as <-. unfold getitem. rewrite (nth_lookup_Some _ _ _ _ Hv).
      simpl. by replace (v + delta - v) with delta by lra.
  - split; [done|]. intros v v' Hv Hv'. rewrite Hv in Hv'. injection Hv' as <-.
    replace (v - v) with 0 by lra. rewrite Rabs_R0. apply Rabs_pos.
Qed.

Lemma gibbs_sweep_coordinates (step_size : R) target_pdf (d : nat) x g :
  unit_source next_double ->
  let x' := (gibbs_sweep next_double step_size target_pdf d x g).1 in
  (forall i : nat, (d <= i)%nat -> x' !! i = x !! i)
  /\ (forall (i : nat) (v v' : R), x !! i = Some v -> x' !! i = Some v' ->
        Rabs (v' - v) <= Rabs step_size).
Proof.
  intros Hsrc. induction d as [|d [IHfar IHnear]]; cbn zeta.
  - split; [done|]. intros i v v' Hv Hv'. simpl in Hv'.
    rewrite Hv in Hv'. injection Hv' as <-.
    replace (v - v) with 0 by lra. rewrite Rabs_R0. apply Rabs_pos.
  - rewrite gibbs_sweep_succ.
    set (s := gibbs_sweep next_double step_size target_pdf d x g) in *.
    destruct (gibbs_update_coordinates step_size target_pdf s.1 d s.2 Hsrc)
      as [Hother Hself].
    split.
    + intros i Hi. rewrite Hother by lia. apply IHfar. lia.
    + intros i v v' Hv Hv'.
      destruct (decide (i = d)) as [->|Hne].
      * apply Hself; [|done]. by rewrite IHfar.
      * rewrite Hother in Hv' by done. by eapply IHnear.
Qed.

(** X14.  Over the reals and with a source of doubles in [[0, 1)], a
    sweep moves no coordinate by more than the step size: corresponding
    coordinates of the state before and after a sweep, and so of two
    consecutive recorded states, differ by at most [|step_size|]. *)
Theorem gibbs_sweep_displacement x0 (N : Z) (step_size : R) target_pdf g
    (n k : nat) (s s' : list R) (v v' : R) :
  unit_source next_double ->
  recorded_chain next_double x0 N step_size target_pdf g !! n = Some s ->
  recorded_chain next_double x0 N step_size target_pdf g !! S n = Some s' ->
  s !! k = Some v -> s' !! k = Some v' ->
  Rabs (v' - v) <= Rabs step_size.
Proof.
  intros Hsrc Hs Hs' Hv Hv'.
  assert (Hlt : (S n < Z.to_nat N)%nat).
  { rewrite <- (recorded_chain_length next_double x0 N step_size target_pdf g).
    by eapply lookup_lt_Some. }
  rewrite recorded_chain_lookup in Hs, Hs' by lia.
  set (before := after_sweeps next_double step_size target_pdf (length x0) (S n) x0 g) in *.
  assert (Hnext : after_sweeps next_double step_size target_pdf (length x0) (S (S n)) x0 g
                  = gibbs_sweep next_double step_size target_pdf (length x0)
                      before.1 before.2) by reflexivity.
  rewrite Hnext in Hs'.
  assert (Hb : s = before.1) by congruence.
  assert (Ha : s' = (gibbs_sweep next_double step_size target_pdf (length x0)
                       before.1 before.2).1) by congruence.
  subst s s'.
  by eapply (gibbs_sweep_coordinates step_size target_pdf (length x0)).
Qed.

End GibbsDisplacement.

(** * Further properties of the importance estimator *)

Section ImportanceReal.
Local Open Scope R_scope.
Implicit Types (f target_pdf : list R -> R) (m_chain : list (list R)).

Lemma importance_integration_R f target_pdf m_chain :
  importance_integration f target_pdf m_chain
  = arithmetic_mean (map (fun x => f x / target_pdf x) m_chain).
Proof.
  unfold importance_integration. by rewrite weights_elementwise, np_mean_R.
Qed.

Lemma Rsum_linear {A} (w1 w2 : A -> R) (a b : R) (l : list A) :
  Rsum (map (fun x => a * w1 x + b * w2 x) l)
  = a * Rsum (map w1 l) + b * Rsum (map w2 l).
Proof. induction l as [|x l IH]; simpl; [lra|]. unfold Rsum in *. rewrite IH. lra. Qed.

Lemma Rsum_bounds (l : list R) (lo hi : R) :
  Forall (fun w => lo <= w <= hi) l ->
  INR (length l) * lo <= Rsum l <= INR (length l) * hi.
Proof.
  induction 1 as [|w l Hw _ IH]; [simpl; lra|].
  cbn [Rsum fold_right length]. fold (Rsum l). rewrite S_INR. lra.
Qed.

Lemma arithmetic_mean_bounds (l : list R) (lo hi : R) :
  l <> [] -> Forall (fun w => lo <= w <= hi) l ->
  lo <= arithmetic_mean l <= hi.
Proof.
  intros Hne Hl. unfold arithmetic_mean.
  pose proof (Rsum_bounds l lo hi Hl) as [Hlo Hhi].
  assert (Hn : 0 < INR (length l)).
  { apply lt_0_INR. destruct l; [done|simpl; lia]. }
  split.
  - apply (Rmult_le_reg_r (INR (length l))); [done|].
    unfold Rdiv. rewrite Rmult_assoc, Rinv_l by lra. lra.
  - apply (Rmult_le_reg_r (INR (length l))); [done|].
    unfold Rdiv. rewrite Rmult_assoc, Rinv_l by lra. lra.
Qed.

(** X15.  Over the reals, when the function is a constant multiple [c] of
    the target density at every sample (and the density does not vanish
    there), the estimate on a non-empty chain is exactly [c], whatever
    the samples are. *)
Theorem importance_of_proportional_function f target_pdf m_chain (c : R) :
  m_chain <> [] ->
  Forall (fun x => target_pdf x <> 0 /\ f x = c * target_pdf x) m_chain ->
  importance_integration f target_pdf m_chain = c.
Proof.
  intros Hne Hprop. rewrite importance_integration_R.
  assert (Hw : Forall (fun w => c <= w <= c)
                 (map (fun x => f x / target_pdf x) m_chain)).
  { apply Forall_fmap. eapply Forall_impl; [exact Hprop|].
    intros x [Hnz Hf]. unfold compose. rewrite Hf.
    replace (c * target_pdf x / target_pdf x) with c by (by field). lra. }
  apply arithmetic_mean_bounds in Hw.
  - lra.
  - by destruct m_chain.
Qed.

(** X16.  Over the reals the estimate is linear in the function: on the
    same chain and density, the estimate of [a * f1 + b * f2] is [a]
    times the estimate of [f1] plus [b] times the estimate of [f2]. *)
Theorem importance_linear (f1 f2 : list R -> R) target_pdf m_chain (a b : R) :
  importance_integration (fun x => a * f1 x + b * f2 x) target_pdf m_chain
  = a * importance_integration f1 target_pdf m_chain
    + b * importance_integration f2 target_pdf m_chain.
Proof.
  rewrite !importance_integration_R. unfold arithmetic_mean.
  rewrite !length_map.
  replace (map (fun x => (a * f1 x + b * f2 x) / target_pdf x) m_chain)
    with (map (fun x => a * (f1 x / target_pdf x) + b * (f2 x / target_pdf x)) m_chain).
  - rewrite Rsum_linear. unfold Rdiv. ring.
  - apply map_ext. intros x. unfold Rdiv. ring.
Qed.

(** X17.  Over the reals, the estimate on a non-empty chain lies between
    any two bounds that hold for the weight [f x / target_pdf x] of every
    sample. *)
Theorem importance_between_weight_bounds f target_pdf m_chain (lo hi : R) :
  m_chain <> [] ->
  Forall (fun x => lo <= f x / target_pdf x <= hi) m_chain ->
  lo <= importance_integration f target_pdf m_chain <= hi.
Proof.
  intros Hne Hw. rewrite importance_integration_R.
  apply arithmetic_mean_bounds.
  - by destruct m_chain.
  - by apply Forall_fmap.
Qed.

End ImportanceReal.

Section MoreFacts.
Context {F : Type} `{Scalar F}.
Context {RNG : Type} (next_double : RNG -> F * RNG).

(** With a positive thinning step and no negative burn-in the call
    returns the thinned chain without its first [burnin] states. *)
Lemma gibbs_accept_reject_Ok (x0 : list F) (thinning burnin N : Z)
    (step_size : F) (target_pdf : list F -> F) (g : RNG) :
  (1 <= thinning)%Z -> (0 <= burnin)%Z ->
  (gibbs_accept_reject next_double x0 thinning burnin N step_size target_pdf g).1
  = Ok (drop (Z.to_nat burnin)
          (every_nth (Z.to_nat thinning)
             (recorded_chain next_double x0 N step_size target_pdf g))).
Proof.
  intros Ht Hb. rewrite gibbs_accept_reject_slices, slice_step_pos by done.
  simpl. by rewrite slice_from_nonneg.
Qed.

Lemma lookup_getitem (x : list F) (j : nat) :
  (j < length x)%nat -> x !! j = Some (getitem x j).
Proof.
  intros Hj. destruct (lookup_lt_is_Some_2 x j Hj) as [v Hv].
  rewrite Hv. f_equal. symmetry. by apply nth_lookup_Some.
Qed.

End MoreFacts.

(** * Properties of the notebook's density and weight function *)

Section NotebookFunctions.
Local Open Scope R_scope.

Lemma sum_squares_R (x : list R) :
  Notebook.sum_squares x = Rsum (map (fun v => v * v) x).
Proof. unfold Notebook.sum_squares. apply np_sum_R. Qed.

Lemma sum_squares_nonneg (x : list R) : 0 <= Notebook.sum_squares x.
Proof.
  rewrite sum_squares_R. apply Rsum_nonneg, Forall_fmap, Forall_true.
  intros v. unfold compose. nra.
Qed.

Lemma Rsum_insert (l : list R) (j : nat) (a b : R) :
  l !! j = Some a -> Rsum (<[j := b]> l) = Rsum l - a + b.
Proof.
  revert j. induction l as [|v l IH]; intros j Hj; [done|].
  destruct j as [|j]; simpl in *.
  - injection Hj as ->. lra.
  - fold (Rsum (<[j := b]> l)). fold (Rsum l). rewrite (IH j Hj). lra.
Qed.

Lemma sum_squares_insert (x : list R) (j : nat) (v w : R) :
  x !! j = Some v ->
  Notebook.sum_squares (<[j := w]> x) = Notebook.sum_squares x - v * v + w * w.
Proof.
  intros Hj. rewrite !sum_squares_R.
  change (map (fun v => v * v) (<[j := w]> x))
    with ((fun v => v * v) <$> <[j := w]> x).
  rewrite list_fmap_insert. apply Rsum_insert.
  by rewrite list_lookup_fmap, Hj.
Qed.

Lemma normaliser_pos (y : R) : 0 < Rpower (2 * PI) y.
Proof. unfold Rpower. apply exp_pos. Qed.

(** The real exponential is one instance, the underflowing one
    another. *)
Lemma exp_like_exp : exp_like exp.
Proof.
  split.
  - intros t. apply Rlt_le, exp_pos.
  - intros s t [Hlt| ->]; [|lra]. by apply Rlt_le, exp_increasing.
Qed.

Lemma exp_like_underflowing : exp_like exp_underflowing.
Proof.
  split.
  - intros t. unfold exp_underflowing.
    destruct (Rle_dec (-745) t); [apply Rlt_le, exp_pos|lra].
  - intros s t Hst. unfold exp_underflowing.
    destruct (Rle_dec (-745) s), (Rle_dec (-745) t); try lra.
    + by apply exp_like_exp.
    + apply Rlt_le, exp_pos.
Qed.

Lemma target_pdf_exp_pos (x : list R) : 0 < Notebook.target_pdf exp x.
Proof.
  unfold Notebook.target_pdf. apply Rmult_lt_0_compat; [apply exp_pos|].
  apply Rinv_0_lt_compat, normaliser_pos.
Qed.

(** The underflowing exponential leaves the density positive where the
    sum of squares is moderate. *)
Lemma target_pdf_underflowing_pos (x : list R) :
  Notebook.sum_squares x <= 1490 ->
  0 < Notebook.target_pdf exp_underflowing x.
Proof.
  intros Hs. unfold Notebook.target_pdf, exp_underflowing.
  destruct (Rle_dec _ _) as [_|Hn]; [|lra].
  apply Rmult_lt_0_compat; [apply exp_pos|].
  apply Rinv_0_lt_compat, normaliser_pos.
Qed.

Context (np_exp : R -> R) (Hexp : exp_like np_exp).

(** Among states of one dimension the density does not decrease when the
    sum of squares does not increase. *)
Lemma target_pdf_monotone (x y : list R) :
  length y = length x ->
  Notebook.sum_squares y <= Notebook.sum_squares x ->
  Notebook.target_pdf np_exp x <= Notebook.target_pdf np_exp y.
Proof.
  intros Hlen Hle. unfold Notebook.target_pdf. rewrite Hlen.
  destruct Hexp as [_ Hmono].
  apply Rmult_le_compat_r.
  - apply Rlt_le, Rinv_0_lt_compat, normaliser_pos.
  - apply Hmono. lra.
Qed.

(** The weight of a sample of positive density lies between [0] and the
    normalising constant. *)
Lemma notebook_weight (x : list R) :
  0 < Notebook.target_pdf np_exp x ->
  0 <= Notebook.f np_exp x / Notebook.target_pdf np_exp x
    <= Rpower (2 * PI) (INR (length x) / 2).
Proof.
  unfold Notebook.f, Notebook.target_pdf.
  set (s := Notebook.sum_squares x).
  set (K := Rpower (2 * PI) (INR (length x) / 2)).
  assert (HK : 0 < K) by apply normaliser_pos.
  pose proof (sum_squares_nonneg x) as Hs. fold s in Hs.
  destruct Hexp as [Hpos Hmono].
  pose proof (Hpos (- s)) as Hf.
  pose proof (Hmono (- s) (-0.5 * s) ltac:(lra)) as Hle.
  intros Hpdf.
  assert (Hden : 0 < np_exp (-0.5 * s)).
  { destruct (Rle_lt_dec (np_exp (-0.5 * s)) 0) as [Hneg|]; [|done].
    exfalso. assert (np_exp (-0.5 * s) / K <= 0); [|lra].
    pose proof (Rinv_0_lt_compat K HK). unfold Rdiv. nra. }
  replace (np_exp (- s) / (np_exp (-0.5 * s) / K))
    with (K * (np_exp (- s) / np_exp (-0.5 * s))) by (field; lra).
  assert (Hq : 0 <= np_exp (- s) / np_exp (-0.5 * s) <= 1).
  { split.
    - apply Rmult_le_pos; [done|]. by apply Rlt_le, Rinv_0_lt_compat.
    - apply (Rmult_le_reg_r (np_exp (-0.5 * s))); [done|].
      unfold Rdiv. rewrite Rmult_assoc, Rinv_l by lra. lra. }
  split; [apply Rmult_le_pos; lra|]. nra.
Qed.

Lemma notebook_estimate_range (m_chain : list (list R)) (d : nat) :
  m_chain <> [] ->
  Forall (fun x => length x = d) m_chain ->
  Forall (fun x => 0 < Notebook.target_pdf np_exp x) m_chain ->
  0 <= importance_integration (Notebook.f np_exp) (Notebook.target_pdf np_exp)
         m_chain
    <= Rpower (2 * PI) (INR d / 2).
Proof.
  intros Hne Hdim Hpos. rewrite importance_integration_R.
  set (K := Rpower (2 * PI) (INR d / 2)).
  apply arithmetic_mean_bounds; [by destruct m_chain|].
  apply Forall_fmap. rewrite Forall_forall in Hdim, Hpos.
  apply Forall_forall. intros x Hx. unfold compose.
  pose proof (notebook_weight x (Hpos x Hx)) as Hw.
  by rewrite (Hdim x Hx) in Hw.
Qed.

End NotebookFunctions.

Section NotebookSampling.
Local Open Scope R_scope.
Context {RNG : Type} (next_double : RNG -> R * RNG).
Context (np_exp : R -> R).

(** X18.  For the notebook's normal density an update of coordinate [j]
    from [v] to [v + delta] changes the sum of squares by
    [(v + delta)^2 - v^2].  Inside the contract (float state of at most
    700 coordinates, so that [(2 pi)^(d/2)] is a finite double; step size
    [h >= 0] with a finite range [2 h]; doubles in [[0, 1)]) and from a
    state whose density has not underflowed to zero, a proposal that does
    not move the coordinate away from zero has a density at least as
    large and is always accepted.  This holds for any exponential that is
    never negative and never decreasing, the underflowing one of
    [float64] included. *)
Theorem notebook_density_update (step_size : R) (k : quotient) (x : list R)
    (j : nat) (v : R) (g : RNG) :
  exp_like np_exp ->
  unit_source next_double ->
  0 <= step_size -> 2 * step_size < float_limit ->
  (length x <= 700)%nat ->
  x !! j = Some v ->
  0 < Notebook.target_pdf np_exp x ->
  let delta := - step_size + 2 * step_size * nth_double next_double 0 g in
  let x_prop := <[j := v + delta]> x in
  let step :=
    Checked.gibbs_update next_double float64 k step_size
      (Notebook.target_pdf np_exp) x j g in
  Notebook.sum_squares x_prop
  = Notebook.sum_squares x - v * v + (v + delta) * (v + delta)
  /\ ((v + delta) * (v + delta) <= v * v ->
      Notebook.target_pdf np_exp x <= Notebook.target_pdf np_exp x_prop
      /\ step = (Ok x_prop, advance next_double 2 g)).
Proof.
  intros Hexp Hsrc Hh Hfin _ Hj Hpos delta x_prop step.
  pose proof (sum_squares_insert x j v (v + delta) Hj) as Hsum.
  fold x_prop in Hsum. split; [done|]. intros Hcloser.
  assert (Hup : Notebook.target_pdf np_exp x <= Notebook.target_pdf np_exp x_prop).
  { apply target_pdf_monotone; [done|apply length_insert|]. rewrite Hsum. lra. }
  split; [done|].
  unfold step. rewrite checked_gibbs_update_R by (done || lra).
  cbn zeta. unfold getitem. rewrite (nth_lookup_Some _ _ _ _ Hj). fold delta. fold x_prop.
  pose proof (Hsrc (advance next_double 1 g)) as Hu.
  fold (nth_double next_double 1 g) in Hu.
  destruct (Rltb _ _) eqn:Hlt; [done|].
  apply Rltb_false in Hlt. exfalso. apply Hlt.
  assert (1 <= Notebook.target_pdf np_exp x_prop / Notebook.target_pdf np_exp x);
    [|lra].
  apply (Rmult_le_reg_r (Notebook.target_pdf np_exp x)); [done|].
  unfold Rdiv. rewrite Rmult_assoc, Rinv_l by lra. lra.
Qed.

(** X19.  With the notebook's functions the weight of a sample of
    dimension [d <= 700] whose density has not underflowed to zero lies
    between
    [0] and [(2 pi)^(d/2)], and so does the estimate on a non-empty chain
    of such samples; for any exponential that is never negative and never
    decreasing. *)
Theorem notebook_estimate_bounded (m_chain : list (list R)) (d : nat) :
  exp_like np_exp ->
  (d <= 700)%nat ->
  m_chain <> [] ->
  Forall (fun x => length x = d) m_chain ->
  Forall (fun x => 0 < Notebook.target_pdf np_exp x) m_chain ->
  Forall (fun x => 0 <= Notebook.f np_exp x / Notebook.target_pdf np_exp x
                     <= Rpower (2 * PI) (INR d / 2)) m_chain
  /\ 0 <= importance_integration (Notebook.f np_exp) (Notebook.target_pdf np_exp)
            m_chain
       <= Rpower (2 * PI) (INR d / 2).
Proof.
  intros Hexp _ Hne Hdim Hpos. split; [|by apply notebook_estimate_range].
  rewrite Forall_forall in Hdim, Hpos. apply Forall_forall. intros x Hx.
  pose proof (notebook_weight np_exp Hexp x (Hpos x Hx)) as Hw.
  by rewrite (Hdim x Hx) in Hw.
Qed.

(** X27.  The notebook's pipeline inside the contract, over the reals:
    from a float state [x0] of at most 700 coordinates whose density has
    not underflowed to zero, with a step size [h >= 0] of finite range
    [2 h], doubles in [[0, 1)], [N >= 1] sweeps,
    [thinning >= 1] and a burn-in [0 <= burnin < ceil (N / thinning)],
    the sampler run on the notebook's density raises nothing and returns
    a non-empty chain of states of positive density, and the importance
    estimate computed from it with the notebook's functions lies between
    [0] and [(2 pi)^(d/2)], [d = len(x0)]; for any exponential that is
    never negative and never decreasing. *)
Theorem notebook_pipeline_estimate_bounded (x0 : list R) (thinning burnin N : Z)
    (step_size : R) (g : RNG) :
  exp_like np_exp ->
  unit_source next_double ->
  0 <= step_size -> 2 * step_size < float_limit ->
  (length x0 <= 700)%nat ->
  0 < Notebook.target_pdf np_exp x0 ->
  (1 <= N)%Z -> (1 <= thinning)%Z ->
  (0 <= burnin < ceil_div N thinning)%Z ->
  exists m_chain,
    (Checked.gibbs_accept_reject next_double (FloatArray x0) thinning burnin N
       step_size numpy_division (Notebook.target_pdf np_exp) g).1 = Ok m_chain
    /\ m_chain <> []
    /\ Forall (fun s => 0 < Notebook.target_pdf np_exp s) m_chain
    /\ 0 <= importance_integration (Notebook.f np_exp)
              (Notebook.target_pdf np_exp) m_chain
         <= Rpower (2 * PI) (INR (length x0) / 2).
Proof.
  intros Hexp Hsrc Hh Hfin _ Hpos HN Ht [Hb0 Hb].
  destruct (draws_ok_R step_size Hh Hfin) as [Hok H01].
  rewrite gibbs_accept_reject_in_contract by done.
  set (pdf := Notebook.target_pdf np_exp).
  set (raw := recorded_chain next_double x0 N step_size pdf g).
  set (thinned := every_nth (Z.to_nat thinning) raw).
  assert (Hlen : Z.of_nat (length thinned) = ceil_div N thinning).
  { unfold thinned. rewrite every_nth_length by lia.
    unfold raw. rewrite recorded_chain_length.
    rewrite (Z2Nat.id N), (Z2Nat.id thinning) by lia.
    pose proof (ceil_div_spec N thinning ltac:(lia)). rewrite Z2Nat.id by nia. done. }
  assert (Hne : drop (Z.to_nat burnin) thinned <> []).
  { intros Hnil. apply (f_equal length) in Hnil.
    rewrite length_drop in Hnil. simpl in Hnil. lia. }
  assert (Hdim : Forall (fun s => length s = length x0)
                   (drop (Z.to_nat burnin) thinned)).
  { apply Forall_drop, every_nth_Forall; [lia|].
    apply recorded_chain_Forall. intros n. apply after_sweeps_length. }
  assert (Hsupp : Forall (fun s => 0 < pdf s) (drop (Z.to_nat burnin) thinned)).
  { apply Forall_drop, every_nth_Forall; [lia|].
    apply recorded_chain_Forall. intros n. by apply after_sweeps_positive. }
  exists (drop (Z.to_nat burnin) thinned).
  split; [by apply gibbs_accept_reject_Ok|]. split; [done|]. split; [done|].
  by apply notebook_estimate_range.
Qed.

End NotebookSampling.

(** * Further properties of the plain Monte Carlo integrator *)

Section MonteCarloGeneric.
Context {F : Type} `{Scalar F} `{Checks F}.
Context {RNG : Type} (next_double : RNG -> F * RNG).

(** X20.  For bounds of equal length [d], of either dtype: when some
    range [high[j] - low[j]] is not finite the integrator raises
    [OverflowError], for every [N]; otherwise it raises [ValueError] for
    [N < 0]; in both cases nothing has been drawn.  Otherwise it returns
    and has drawn exactly [N * d] doubles. *)
Theorem monte_carlo_draw_count (integrand : list F -> F) (low high : array F)
    (N : Z) (g : RNG) :
  length (array_values high) = length (array_values low) ->
  let ranges := zip_with fsub (array_values high) (array_values low) in
  let run := monte_carlo_integral next_double integrand (low, high) N g in
  (forallb fisfinite ranges = false -> run = (Raise OverflowError, g))
  /\ (forallb fisfinite ranges = true -> (N < 0)%Z -> run = (Raise ValueError, g))
  /\ (forallb fisfinite ranges = true -> (0 <= N)%Z ->
      raises run.1 = false
      /\ run.2 = advance next_double (Z.to_nat N * length (array_values low)) g).
Proof.
  intros Hlen ranges run. unfold run.
  rewrite monte_carlo_integral_cases by done. fold ranges. cbn zeta.
  split; [|split].
  - by intros ->.
  - intros -> HN. cbn [negb]. by destruct (Z.ltb_spec N 0); [|lia].
  - intros -> HN. cbn [negb]. by destruct (Z.ltb_spec N 0); [lia|].
Qed.

(** X30.  With [int64] bounds, as [np.full(D, -100)] and
    [np.full(D, 100)] are, the volume that multiplies the mean and the
    deviation is the product of the differences [high[i] - low[i]]
    reduced modulo [2^64] into [[-2^63, 2^63)]: it is the volume of the
    box exactly when that fits [int64], and differs from it by a multiple
    of [2^64] otherwise. *)
Theorem monte_carlo_int64_volume (integrand : list F -> F) (low high : list Z)
    (N : Z) (g : RNG) :
  length high = length low ->
  forallb fisfinite (zip_with fsub (map of_Z high) (map of_Z low)) = true ->
  (0 <= N)%Z ->
  let exact := fold_right Z.mul 1%Z (zip_with Z.sub high low) in
  let vol := wrap_int64 exact in
  let values :=
    map integrand
      (draw_rows next_double (Z.to_nat N) (map of_Z low) (map of_Z high) g).1 in
  (monte_carlo_integral next_double integrand (IntArray low, IntArray high) N g).1
  = Ok (fmul (of_Z vol) (np_mean values),
        fdiv (fmul (of_Z vol) (np_std values)) (fsqrt (of_Z N)))
  /\ (- 2 ^ 63 <= vol < 2 ^ 63)%Z
  /\ (exists q, vol = exact + q * 2 ^ 64)%Z
  /\ (vol = exact <-> - 2 ^ 63 <= exact < 2 ^ 63)%Z.
Proof.
  intros Hlen Hfin HN exact vol values.
  split; [|split; [apply wrap_int64_range|split; [apply wrap_int64_congruent|]]].
  - rewrite monte_carlo_integral_cases
      by (cbn [array_values]; by rewrite !length_map).
    cbn [array_values]. rewrite Hfin. cbn [negb].
    destruct (Z.ltb_spec N 0); [lia|]. cbn [fst].
    assert (Hvol : np_prod_int64 (map (fun p => wrap_int64 (p.1 - p.2)) (zip high low))
                   = vol).
    { unfold vol, exact. rewrite <- np_prod_int64_wrap. f_equal.
      clear. revert low. induction high as [|h high IH]; intros [|l low]; try done.
      simpl. by rewrite IH. }
    by rewrite Hvol.
  - split; [intros Heq; rewrite <- Heq; apply wrap_int64_range|apply wrap_int64_id].
Qed.

End MonteCarloGeneric.

Section MonteCarloReal.
Local Open Scope R_scope.
Context {RNG : Type} (next_double : RNG -> R * RNG).

Lemma draw_rows_in_box (n : nat) (low high : list R) (g : RNG) :
  unit_source next_double ->
  Forall2 Rlt low high ->
  Forall (fun p => forall (j : nat) (l h v : R),
            low !! j = Some l -> high !! j = Some h -> p !! j = Some v ->
            l <= v < h)
    (draw_rows next_double n low high g).1.
Proof.
  intros Hsrc Hbox. revert g. induction n as [|n IH]; intros g; simpl; [done|].
  pose proof (draw_row_in_box next_double low high g Hsrc Hbox) as Hrow.
  destruct (draw_row next_double low high g) as [row g1].
  specialize (IH g1).
  destruct (draw_rows next_double n low high g1) as [rows g2]. simpl in *.
  by constructor.
Qed.

(** X21.  Over the reals and with a source of doubles in [[0, 1)], every
    point the integrator evaluates the integrand at lies in the box:
    each coordinate [j] is at least [low[j]] and below [high[j]]. *)
Theorem monte_carlo_points_in_box (low high : list R) (N : Z) (g : RNG)
    (p : list R) (j : nat) (l h v : R) :
  unit_source next_double ->
  Forall2 Rlt low high ->
  p ∈ (draw_rows next_double (Z.to_nat N) low high g).1 ->
  low !! j = Some l -> high !! j = Some h -> p !! j = Some v ->
  l <= v < h.
Proof.
  intros Hsrc Hbox Hp Hl Hh Hv.
  pose proof (draw_rows_in_box (Z.to_nat N) low high g Hsrc Hbox) as Hall.
  rewrite Forall_forall in Hall. by eapply Hall.
Qed.

End MonteCarloReal.

Section MonteCarloFloat.
Import PrimFloat.
Local Open Scope float_scope.
Context {RNG : Type} (next_double : RNG -> float * RNG).

Lemma is_nan_SF (q : float) :
  FloatOps.Prim2SF q = SpecFloat.S754_nan -> is_nan q = true.
Proof.
  intros Hq. unfold is_nan. by rewrite FloatAxioms.eqb_spec, Hq.
Qed.

Lemma SF_of_is_nan (q : float) :
  is_nan q = true -> FloatOps.Prim2SF q = SpecFloat.S754_nan.
Proof.
  unfold is_nan. rewrite FloatAxioms.eqb_spec.
  destruct (FloatOps.Prim2SF q) as [s|s| |s m e]; simpl; try done.
  - by destruct s.
  - unfold SpecFloat.SFeqb. simpl.
    rewrite Z.compare_refl, Pos.compare_refl. by destruct s.
Qed.

Lemma mul_nan_r (a q : float) : is_nan q = true -> is_nan (a * q) = true.
Proof.
  intros Hq%SF_of_is_nan. apply is_nan_SF.
  rewrite FloatAxioms.mul_spec, Hq. unfold FloatAxioms.SF64mul.
  by destruct (FloatOps.Prim2SF a).
Qed.

Lemma div_nan_l (q b : float) : is_nan q = true -> is_nan (q / b) = true.
Proof.
  intros Hq%SF_of_is_nan. apply is_nan_SF.
  rewrite FloatAxioms.div_spec, Hq. unfold FloatAxioms.SF64div.
  by destruct (FloatOps.Prim2SF b).
Qed.

(** X25.  On binary64 floats, [N = 0] does not raise: for bounds of equal
    length whose ranges are all finite, and an integrand vectorised over
    the rows of the batch, the integrator draws nothing and returns a NaN
    estimate and a NaN standard error (the mean and the deviation of no
    values). *)
Theorem monte_carlo_no_samples_is_nan (integrand : list float -> float)
    (low high : array float) (N : Z) (g : RNG) :
  length (array_values high) = length (array_values low) ->
  forallb is_finite (zip_with sub (array_values high) (array_values low)) = true ->
  N = 0%Z ->
  exists estimate std_error,
    monte_carlo_integral next_double integrand (low, high) N g
      = (Ok (estimate, std_error), g)
    /\ is_nan estimate = true
    /\ is_nan std_error = true.
Proof.
  intros Hlen Hfin ->. rewrite monte_carlo_integral_cases by done.
  change (forallb fisfinite (zip_with fsub (array_values high) (array_values low)))
    with (forallb is_finite (zip_with sub (array_values high) (array_values low))).
  rewrite Hfin. cbn [negb Z.ltb Z.compare Z.to_nat draw_rows map fst Nat.mul].
  eexists _, _. split; [reflexivity|]. split.
  - by apply mul_nan_r.
  - by apply div_nan_l, mul_nan_r.
Qed.

End MonteCarloFloat.

Section BlockingRemainder.
Context {F : Type} `{Scalar F}.

(** X26.  The entry for block length [L = 2^k] never reads the last
    [N mod L] elements: two series of the same length that agree on their
    first [(N // L) * L] elements get the same estimate and the same
    uncertainty at that block length. *)
Theorem blocking_ignores_remainder (s1 s2 : list F) (min_blocks : Z) (k : nat) :
  let N := Z.of_nat (length s1) in
  let L := (2 ^ Z.of_nat k)%Z in
  length s1 = length s2 ->
  take (Z.to_nat (N / L * L)) s1 = take (Z.to_nat (N / L * L)) s2 ->
  (1 <= min_blocks <= N / L)%Z ->
  exists bin_sizes var_mean1 err_var1 var_mean2 err_var2,
    blocking_variance s1 min_blocks = Ok (bin_sizes, var_mean1, err_var1)
    /\ blocking_variance s2 min_blocks = Ok (bin_sizes, var_mean2, err_var2)
    /\ is_Some (var_mean1 !! k)
    /\ var_mean1 !! k = var_mean2 !! k
    /\ err_var1 !! k = err_var2 !! k.
Proof.
  intros N L Hlen Htake [Hm Hn].
  assert (HL : (0 < L)%Z) by (apply Z.pow_pos_nonneg; lia).
  assert (HN : (min_blocks <= N)%Z).
  { pose proof (Z.mul_div_le N L HL). nia. }
  assert (Hk : (Z.of_nat k < Z.log2 (N / min_blocks) + 1)%Z).
  { apply Z.lt_succ_r, enough_blocks_iff; [lia|done]. }
  assert (Hentry : blocking_entry s1 L = blocking_entry s2 L).
  { unfold blocking_entry. rewrite <- Hlen. fold N. by rewrite Htake. }
  pose proof (blocking_variance_Ok s1 min_blocks ltac:(fold N; lia)) as E1.
  pose proof (blocking_variance_Ok s2 min_blocks
                ltac:(rewrite <- Hlen; fold N; lia)) as E2.
  cbn zeta in E1, E2. rewrite <- Hlen in E2. fold N in E1, E2.
  eexists _, _, _, _, _.
  split; [exact E1|]. split; [exact E2|].
  rewrite !list_lookup_fmap, pow2_arange_lookup by done.
  cbn [fmap option_fmap option_map]. fold L. rewrite Hentry.
  split; [by eexists|]. done.
Qed.

End BlockingRemainder.

(** * The further properties at fixed inputs *)


Lemma unit_source_half : unit_source half_doubles.
Proof. intros g. simpl. lra. Qed.

Section MoreRuns.
Import PrimFloat.
Local Open Scope float_scope.

Lemma blocking_nonpositive_min_blocks_raises_witness :
  blocking_variance [1.5; 2.5; 3.5] (-2) = Raise ValueError.
Proof.
  apply (blocking_nonpositive_min_blocks_raises [1.5; 2.5; 3.5] (-2)); simpl; lia.
Defined.

Lemma blocking_curve_is_every_candidate_witness :
  exists var_mean err_var,
    blocking_variance (map float_of_Z (seqZ 1 16)) 4
    = Ok (pow2_arange (Z.log2 (16 / 4) + 1), var_mean, err_var)
    /\ Z.of_nat (length var_mean) = 3%Z.
Proof.
  destruct (blocking_curve_is_every_candidate (map float_of_Z (seqZ 1 16)) 4
              ltac:(simpl; lia))
    as (var_mean & err_var & Hrun & _ & Hlen & _).
  exists var_mean, err_var. split; [exact Hrun|exact Hlen].
Defined.

Lemma blocking_ignores_remainder_witness :
  exists bin_sizes var_mean1 err_var1 var_mean2 err_var2,
    blocking_variance [1; 2; 3; 4; 5; 6; 7] 2 = Ok (bin_sizes, var_mean1, err_var1)
    /\ blocking_variance [1; 2; 3; 4; 5; 6; 70] 2 = Ok (bin_sizes, var_mean2, err_var2)
    /\ var_mean1 !! 1%nat = var_mean2 !! 1%nat.
Proof.
  destruct (blocking_ignores_remainder [1; 2; 3; 4; 5; 6; 7] [1; 2; 3; 4; 5; 6; 70]
              2 1 ltac:(reflexivity) ltac:(reflexivity)
              ltac:(change (1 <= 2 <= 3)%Z; lia))
    as (b & v1 & e1 & v2 & e2 & H1 & H2 & _ & Hv & _).
  exists b, v1, e1, v2, e2. split; [exact H1|]. split; [exact H2|exact Hv].
Defined.

Lemma gibbs_chain_dimension_witness :
  Forall (fun s => length s = 2%nat) [[1.5; 0]; [2.5; 0]; [3.5; 0]].
Proof.
  apply (gibbs_chain_dimension cycle_doubles [0; 0] 2 1 7 1 unit_density 0%nat).
  reflexivity.
Defined.

Lemma gibbs_negative_burn_in_keeps_tail_witness :
  exists chain,
    (gibbs_accept_reject cycle_doubles [0; 0] 1 (-2) 7 1 unit_density 0%nat).1
      = Ok chain
    /\ length chain = 2%nat.
Proof.
  destruct (gibbs_negative_burn_in_keeps_tail cycle_doubles [0; 0] 1 (-2) 7 1
              unit_density 0%nat ltac:(lia) ltac:(lia))
    as (chain & Hrun & _ & Hlen).
  exists chain. split; [exact Hrun|]. rewrite Hlen. reflexivity.
Defined.

Lemma gibbs_negative_thinning_reverses_witness :
  (gibbs_accept_reject cycle_doubles [0; 0] (- (2)) 1 7 1 unit_density 0%nat).1
  = Ok (drop 1 (every_nth 2
                  (reverse (recorded_chain cycle_doubles [0; 0] 7 1
                              unit_density 0%nat)))).
Proof.
  apply (gibbs_negative_thinning_reverses cycle_doubles [0; 0] 2 1 7 1
           unit_density 0%nat); lia.
Defined.

Lemma gibbs_thinning_composes_witness :
  exists chain_a,
    (gibbs_accept_reject cycle_doubles [0; 0] 2 0 7 1 unit_density 0%nat).1
      = Ok chain_a
    /\ (gibbs_accept_reject cycle_doubles [0; 0] (2 * 3) 0 7 1 unit_density 0%nat).1
       = Ok (every_nth 3 chain_a).
Proof.
  apply (gibbs_thinning_composes cycle_doubles [0; 0] 2 3 7 1 unit_density 0%nat);
    lia.
Defined.

Lemma monte_carlo_draw_count_witness :
  raises (monte_carlo_integral cycle_doubles unit_density
            (FloatArray [0; 0], FloatArray [2; 4]) 3 0%nat).1 = false
  /\ (monte_carlo_integral cycle_doubles unit_density
        (FloatArray [0; 0], FloatArray [2; 4]) 3 0%nat).2
     = advance cycle_doubles (3 * 2) 0%nat.
Proof.
  destruct (monte_carlo_draw_count cycle_doubles unit_density
              (FloatArray [0; 0]) (FloatArray [2; 4]) 3 0%nat
              ltac:(reflexivity)) as (_ & _ & Hgood).
  apply Hgood; [reflexivity|lia].
Defined.

Lemma monte_carlo_no_samples_is_nan_witness :
  exists estimate std_error,
    monte_carlo_integral cycle_doubles unit_density
      (FloatArray [0; 0], FloatArray [2; 4]) 0 0%nat
      = (Ok (estimate, std_error), 0%nat)
    /\ is_nan estimate = true /\ is_nan std_error = true.
Proof.
  apply (monte_carlo_no_samples_is_nan cycle_doubles unit_density
           (FloatArray [0; 0]) (FloatArray [2; 4]) 0 0%nat); reflexivity.
Defined.

Lemma monte_carlo_int64_volume_witness :
  wrap_int64 (fold_right Z.mul 1%Z
                (zip_with Z.sub (replicate 9 100%Z) (replicate 9 (-100)%Z)))
  = (-4508834063867445248)%Z
  /\ (- 2 ^ 63 <= -4508834063867445248 < 2 ^ 63)%Z.
Proof.
  destruct (monte_carlo_int64_volume cycle_doubles unit_density
              (replicate 9 (-100)%Z) (replicate 9 100%Z) 1 0%nat
              ltac:(reflexivity) ltac:(reflexivity) ltac:(lia))
    as (_ & Hrange & _ & _).
  split; [reflexivity|exact Hrange].
Defined.




Lemma gibbs_bad_step_size_raises_witness :
  Checked.gibbs_accept_reject cycle_doubles (FloatArray [0; 0]) 2 1 7 (-1)
    python_division unit_density 0%nat
  = (Raise ValueError, 0%nat).
Proof.
  exact (gibbs_bad_step_size_raises cycle_doubles (FloatArray [0; 0]) 2 1 7 (-1)
           python_division unit_density 0%nat ltac:(lia) ltac:(discriminate)
           ltac:(intros [_ Hsign]; vm_compute in Hsign; discriminate)).
Defined.

End MoreRuns.

Section MoreRealRuns.
Local Open Scope R_scope.

Lemma blocking_estimates_nonnegative_witness :
  exists bin_sizes var_mean err_var,
    blocking_variance [1; 2; 4; 8; 16; 32; 64; 128; 256] 2
      = Ok (bin_sizes, var_mean, err_var)
    /\ Forall (fun v => 0 <= v) var_mean /\ Forall (fun e => 0 <= e) err_var.
Proof.
  eexists _, _, _. split; [apply blocking_variance_Ok; simpl; lia|].
  eapply (blocking_estimates_nonnegative [1; 2; 4; 8; 16; 32; 64; 128; 256] 2);
    [lia|].
  apply blocking_variance_Ok. simpl. lia.
Defined.

Lemma blocking_constant_series_witness :
  exists bin_sizes var_mean err_var,
    blocking_variance [3; 3; 3; 3; 3; 3; 3; 3] 2 = Ok (bin_sizes, var_mean, err_var)
    /\ Forall (fun v => v = 0) var_mean /\ Forall (fun e => e = 0) err_var.
Proof.
  eexists _, _, _. split; [apply blocking_variance_Ok; simpl; lia|].
  eapply (blocking_constant_series [3; 3; 3; 3; 3; 3; 3; 3] 3 2);
    [repeat constructor|lia|].
  apply blocking_variance_Ok. simpl. lia.
Defined.

Lemma gibbs_update_uphill_and_zero_witness :
  (gibbs_update half_doubles 1 (fun _ => 2) [0; 0] 0 0%nat).1
  = <[0%nat := getitem [0; 0] 0 + (uniform half_doubles (- (1)) 1 0%nat).1]> [0; 0].
Proof.
  destruct (gibbs_update_uphill_and_zero half_doubles 1 (fun _ => 2) [0; 0] 0 0%nat
              unit_source_half ltac:(lra)) as [Hup _].
  apply Hup. lra.
Defined.

Lemma gibbs_stays_in_support_witness :
  Forall (fun s => 0 < hd 1 s + 1)
    (drop 1 (every_nth 2
               (recorded_chain half_doubles [1; 0] 7 1 (fun s => hd 1 s + 1) 0%nat))).
Proof.
  apply (gibbs_stays_in_support half_doubles [1; 0] 2 1 7 1
           (fun s => hd 1 s + 1) 0%nat _ unit_source_half).
  - simpl. lra.
  - apply gibbs_accept_reject_Ok; lia.
Defined.

Lemma gibbs_sweep_displacement_witness :
  let raw := recorded_chain half_doubles [1; 0] 3 2 (fun _ => 1) 0%nat in
  let s := (after_sweeps half_doubles 2 (fun _ => 1) 2 1 [1; 0] 0%nat).1 in
  let s' := (after_sweeps half_doubles 2 (fun _ => 1) 2 2 [1; 0] 0%nat).1 in
  Rabs (getitem s' 0 - getitem s 0) <= Rabs 2.
Proof.
  intros raw s s'.
  apply (gibbs_sweep_displacement half_doubles [1; 0] 3 2 (fun _ => 1) 0%nat
           0 0 s s' (getitem s 0) (getitem s' 0) unit_source_half).
  - apply recorded_chain_lookup. simpl. lia.
  - apply recorded_chain_lookup. simpl. lia.
  - apply lookup_getitem. unfold s. rewrite after_sweeps_length. simpl. lia.
  - apply lookup_getitem. unfold s'. rewrite after_sweeps_length. simpl. lia.
Defined.

Lemma importance_of_proportional_function_witness :
  importance_integration (fun _ => 6) (fun _ => 2) [[1]; [3]] = 3.
Proof.
  apply (importance_of_proportional_function (fun _ => 6) (fun _ => 2) [[1]; [3]] 3).
  - discriminate.
  - repeat constructor; lra.
Defined.

Lemma importance_between_weight_bounds_witness :
  1 <= importance_integration (fun x => hd 0 x) (fun _ => 1) [[1]; [3]] <= 3.
Proof.
  apply (importance_between_weight_bounds (fun x => hd 0 x) (fun _ => 1) [[1]; [3]] 1 3).
  - discriminate.
  - repeat constructor; simpl; lra.
Defined.

Lemma notebook_density_update_witness :
  let delta := - (1) + 2 * 1 * nth_double half_doubles 0 0%nat in
  Notebook.sum_squares (<[0%nat := 1 + delta]> [1; 2])
  = Notebook.sum_squares [1; 2] - 1 * 1 + (1 + delta) * (1 + delta).
Proof.
  intros delta.
  pose proof (float_limit_gt 2 eq_refl) as Hlimit.
  destruct (notebook_density_update half_doubles exp 1 numpy_division [1; 2] 0 1
              0%nat exp_like_exp unit_source_half ltac:(lra) ltac:(lra)
              ltac:(simpl; lia) ltac:(reflexivity)
              (target_pdf_exp_pos [1; 2])) as [Hsum _].
  exact Hsum.
Defined.

Lemma notebook_estimate_bounded_witness :
  0 <= importance_integration (Notebook.f exp) (Notebook.target_pdf exp)
         [[1; 2]; [0; 0]]
    <= Rpower (2 * PI) (INR 2 / 2).
Proof.
  destruct (notebook_estimate_bounded exp [[1; 2]; [0; 0]] 2 exp_like_exp
              ltac:(lia) ltac:(discriminate) ltac:(repeat constructor)
              ltac:(repeat constructor; apply target_pdf_exp_pos))
    as [_ Hbound].
  exact Hbound.
Defined.

Lemma gibbs_inner_step_in_contract_witness :
  - (1) <= - (1) + 2 * 1 * nth_double half_doubles 0 0%nat < 1.
Proof.
  pose proof (float_limit_gt 2 eq_refl) as Hlimit.
  destruct (gibbs_inner_step_in_contract half_doubles 1 python_division
              (fun _ => 2) [0; 0] 0 0%nat unit_source_half ltac:(lra) ltac:(lra)
              ltac:(lra))
    as (Hdelta & _).
  exact Hdelta.
Defined.

Lemma monte_carlo_points_in_box_witness :
  0 <= 0 + (2 - 0) * (1 / 2) < 2.
Proof.
  apply (monte_carlo_points_in_box half_doubles [0; 1] [2; 4] 1 0%nat
           [0 + (2 - 0) * (1 / 2); 1 + (4 - 1) * (1 / 2)] 0 0 2
           (0 + (2 - 0) * (1 / 2)) unit_source_half).
  - repeat constructor; lra.
  - apply list_elem_of_here.
  - reflexivity.
  - reflexivity.
  - reflexivity.
Defined.

Lemma notebook_pipeline_estimate_bounded_witness :
  exists m_chain,
    (Checked.gibbs_accept_reject half_doubles (FloatArray [1; 0]) 2 1 7 1
       numpy_division (Notebook.target_pdf exp_underflowing) 0%nat).1 = Ok m_chain
    /\ m_chain <> []
    /\ Forall (fun s => 0 < Notebook.target_pdf exp_underflowing s) m_chain
    /\ 0 <= importance_integration (Notebook.f exp_underflowing)
              (Notebook.target_pdf exp_underflowing) m_chain
         <= Rpower (2 * PI) (INR 2 / 2).
Proof.
  pose proof (float_limit_gt 2 eq_refl) as Hlimit.
  apply (notebook_pipeline_estimate_bounded half_doubles exp_underflowing [1; 0]
           2 1 7 1 0%nat exp_like_underflowing unit_source_half).
  - lra.
  - lra.
  - simpl. lia.
  - apply target_pdf_underflowing_pos. rewrite sum_squares_R. simpl. lra.
  - lia.
  - lia.
  - change (0 <= 1 < 4)%Z. lia.
Defined.

(** The density of the notebook where the exponential has underflowed:
    zero at [x = 40], as [float64] has it, and positive at the origin. *)
Example notebook_density_underflows :
  Notebook.target_pdf exp_underflowing [40] = 0
  /\ 0 < Notebook.target_pdf exp_underflowing [0].
Proof.
  unfold Notebook.target_pdf, Notebook.sum_squares, exp_underflowing.
  rewrite !np_sum_R. simpl. split.
  - destruct (Rle_dec _ _) as [Hle|_]; [lra|]. unfold Rdiv. apply Rmult_0_l.
  - destruct (Rle_dec _ _) as [_|Hn]; [|lra].
    apply Rmult_lt_0_compat; [apply exp_pos|].
    apply Rinv_0_lt_compat, normaliser_pos.
Qed.

Lemma gibbs_integer_origin_never_moves_witness :
  exists chain,
    (Checked.gibbs_accept_reject half_doubles (IntArray [0; 0]%Z) 1 0 3 (1 / 2)
       numpy_division (fun _ => 1) 0%nat).1 = Ok chain
    /\ Forall (fun s => s = [0; 0]) chain.
Proof.
  pose proof (float_limit_gt 2 eq_refl) as Hlimit.
  destruct (checked_gibbs_accept_reject_Ok half_doubles (IntArray [0; 0]%Z) 1 0 3
              (1 / 2) (fun _ => 1) 0%nat
              (draws_ok_R (1 / 2) ltac:(lra) ltac:(lra)) ltac:(lia))
    as [chain Hrun].
  exists chain. split; [exact Hrun|].
  apply (gibbs_integer_origin_never_moves half_doubles 2 1 0 3 (1 / 2)
           numpy_division (fun _ => 1) 0%nat chain unit_source_half ltac:(lra)
           Hrun).
Defined.

End MoreRealRuns.
